(** * PageRank: the transition model, the sampling estimator and the
      iterative solver of [pagerank.py], embedded and verified.

    Numbers.  Python's floats are idealised as exact rationals [Q]; all
    equalities between ranks are stated with [==] (equality of fractions).
    Python's integers are [Z].

    Dictionaries.  A Python [dict] keeps its keys in insertion order, and
    that order is observable here (the in-place update of the solver, the
    weights handed to [random.choices]); a dict is therefore an association
    list in insertion order, the keys of which are pairwise distinct
    ([NoDup (keys d)]).  A Python [set] is a [gset].

    Errors.  Every operation that can raise does so in [result].

    Binary64.  Where a property depends on the rounding of the floats, the
    operation is also given on the primitive binary64 floats; such
    definitions carry [binary64] in their name. *)

From Stdlib Require Import QArith Qabs Qround Lqa.
From Stdlib Require Floats.
From stdpp Require Import base list gmap strings.

Local Open Scope Q_scope.

(** ** Exceptions *)

Inductive PyError : Type :=
  | KeyError
  | ZeroDivisionError
  | IndexError
  | ValueError
  | OSError.

Inductive result (A : Type) : Type :=
  | Ok (a : A)
  | Raise (e : PyError).
Arguments Ok {A} a.
Arguments Raise {A} e.

#[global] Instance result_ret : MRet result := @Ok.
#[global] Instance result_bind : MBind result := fun A B k m =>
  match m with
  | Ok a => k a
  | Raise e => Raise e
  end.

Definition raises {A : Type} (m : result A) : Prop := exists e, m = Raise e.

(** A [for] loop whose body may raise. *)
Fixpoint for_each {S A : Type} (body : S -> A -> result S) (s : S) (l : list A)
  : result S :=
  match l with
  | [] => Ok s
  | x :: l' => s' ← body s x; for_each body s' l'
  end.

(** ** Dictionaries *)

Definition page : Type := string.

Section Dict.
Context {V : Type}.

Definition keys (d : list (page * V)) : list page := map fst d.
Definition values (d : list (page * V)) : list V := map snd d.

(** [d[k]] *)
Fixpoint dict_get (d : list (page * V)) (k : page) : result V :=
  match d with
  | [] => Raise KeyError
  | (k', v) :: d' => if decide (k' = k) then Ok v else dict_get d' k
  end.

(** [d[k] = v]: an existing key keeps its position, a new one is appended. *)
Fixpoint dict_set (d : list (page * V)) (k : page) (v : V) : list (page * V) :=
  match d with
  | [] => [(k, v)]
  | (k', v') :: d' =>
      if decide (k' = k) then (k, v) :: d' else (k', v') :: dict_set d' k v
  end.

(** [for k in ks: d[k] = v] *)
Definition fill (d : list (page * V)) (ks : list page) (v : V) : list (page * V) :=
  foldl (fun d k => dict_set d k v) d ks.
End Dict.

Definition Corpus : Type := list (page * gset page).
Definition Ranks : Type := list (page * Q).

(** ** Arithmetic *)

(** [len(x)] as a number. *)
Definition len {A : Type} (l : list A) : Q := inject_Z (Z.of_nat (length l)).
Definition set_len (s : gset page) : Q := inject_Z (Z.of_nat (size s)).

(** [a / b], which raises when [b] is zero. *)
Definition div (a b : Q) : result Q :=
  if Qeq_bool b 0 then Raise ZeroDivisionError else Ok (a / b).

(** ** [transition_model] *)

Definition transition_model (corpus : Corpus) (pg : page) (damping_factor : Q)
  : result Ranks :=
  out ← dict_get corpus pg;
  let links := size out in
  if negb (Nat.eqb links 0) then
    prob ← div damping_factor (set_len out);
    additional_prob ← div (1 - damping_factor) (len corpus);
    let d := fill [] (keys corpus) additional_prob in
    for_each (fun d page_link =>
                v ← dict_get d page_link;
                Ok (dict_set d page_link (v + prob)))
             d (elements out)
  else
    prob ← div 1 (len corpus);
    Ok (fill [] (keys corpus) prob).

(** ** The random source

    The generator is the stream of the uniform variates of $[0,1)$ it will
    still produce; a draw consumes the head.  [choices] (with [k = 1])
    inverts the cumulative distribution of the weights with one variate, as
    Python's [random] module does.  [choice] is an abstraction: it indexes
    the sequence with one scaled variate, where Python draws the index from
    random bits; what is proved of it holds for every generator. *)

Definition RandomState : Type := nat -> Q.

Definition random (g : RandomState) : Q * RandomState :=
  (g 0%nat, fun i => g (S i)).

Definition uniform01 (g : RandomState) : Prop := forall i, 0 <= g i /\ g i < 1.

(** [random.choice(seq)] *)
Definition choice {A : Type} (seq : list A) (g : RandomState)
  : result (A * RandomState) :=
  let (u, g') := random g in
  match seq !! Z.to_nat (Qfloor (u * len seq)) with
  | Some x => Ok (x, g')
  | None => Raise IndexError
  end.

(** [itertools.accumulate(ws)]: the running sums, the first one being the
    first weight itself. *)
Fixpoint running (acc : Q) (ws : list Q) : list Q :=
  match ws with
  | [] => []
  | w :: ws' => (acc + w) :: running (acc + w) ws'
  end.

Definition accumulate (ws : list Q) : list Q :=
  match ws with
  | [] => []
  | w :: ws' => w :: running w ws'
  end.

(** [bisect(a, x, 0, hi)] on a non-decreasing table: the first index below
    [hi] whose entry exceeds [x], and [hi] when there is none. *)
Fixpoint bisect (a : list Q) (x : Q) (hi : nat) : nat :=
  match hi, a with
  | S hi', c :: a' => if Qlt_le_dec x c then 0%nat else S (bisect a' x hi')
  | _, _ => 0%nat
  end.

(** [random.choices(population, weights)[0]] *)
Definition choices {A : Type} (population : list A) (weights : list Q)
    (g : RandomState) : result (A * RandomState) :=
  let n := length population in
  let cum_weights := accumulate weights in
  if negb (Nat.eqb (length cum_weights) n) then Raise ValueError
  else
    match last cum_weights with
    | None => Raise IndexError
    | Some total =>
        if Qle_bool total 0 then Raise ValueError
        else
          let (u, g') := random g in
          match population !! bisect cum_weights (u * total) (n - 1) with
          | Some x => Ok (x, g')
          | None => Raise IndexError
          end
    end.

(** ** [sample_pagerank] *)

(** The state of the sampling loop: the counters, the current page, the
    generator. *)
Definition SampleState : Type := (Ranks * page * RandomState)%type.

(** One turn of [for i in range(n)]. *)
Definition sample_step (corpus : Corpus) (damping_factor : Q)
    (all_pages : list page) (st : SampleState) : result SampleState :=
  let '(d, random_page, g) := st in
  c ← dict_get d random_page;
  let d := dict_set d random_page (c + 1) in
  model ← transition_model corpus random_page damping_factor;
  '(random_page, g) ← choices all_pages (values model) g;
  Ok (d, random_page, g).

Fixpoint sample_loop (corpus : Corpus) (damping_factor : Q)
    (all_pages : list page) (turns : nat) (st : SampleState)
  : result SampleState :=
  match turns with
  | O => Ok st
  | S turns' =>
      st' ← sample_step corpus damping_factor all_pages st;
      sample_loop corpus damping_factor all_pages turns' st'
  end.

(** [for page in d: d[page] /= n] *)
Definition normalise (d : Ranks) (n : Z) : result Ranks :=
  for_each (fun d pg =>
              v ← dict_get d pg;
              q ← div v (inject_Z n);
              Ok (dict_set d pg q))
           d (keys d).

Definition sample_pagerank (corpus : Corpus) (damping_factor : Q) (n : Z)
    (g : RandomState) : result Ranks :=
  let all_pages := keys corpus in
  '(random_page, g) ← choice all_pages g;
  let d := fill [] (keys corpus) 0 in
  '(d, _, _) ← sample_loop corpus damping_factor all_pages (Z.to_nat n)
                 (d, random_page, g);
  normalise d n.

(** ** [iterate_pagerank] *)

Definition threshold : Q := 1 # 1000.

(** The inner loop [for link in corpus] for the page [pg]. *)
Definition summation_of (corpus : Corpus) (damping_factor : Q) (d : Ranks)
    (pg : page) : result Q :=
  for_each (fun summation link =>
              out ← dict_get corpus link;
              if decide (pg ∈ out) then
                r ← dict_get d link;
                t ← div (damping_factor * r) (set_len out);
                Ok (summation + t)
              else Ok summation)
           0 (keys corpus).

(** The body of [for page in corpus]: the state is the dictionary [d],
    rewritten in place, and [converted_count]. *)
Definition update_page (corpus : Corpus) (damping_factor odds : Q)
    (st : Ranks * Z) (pg : page) : result (Ranks * Z) :=
  let '(d, converted_count) := st in
  summation ← summation_of corpus damping_factor d pg;
  old ← dict_get d pg;
  let converted_count :=
    if Qlt_le_dec (Qabs (old - (odds + summation))) threshold
    then (converted_count + 1)%Z else converted_count in
  Ok (dict_set d pg (odds + summation), converted_count).

(** One turn of the [while] loop, up to the test of [converted_count]. *)
Definition pass (corpus : Corpus) (damping_factor odds : Q) (d : Ranks)
  : result (Ranks * Z) :=
  for_each (update_page corpus damping_factor odds) (d, 0%Z) (keys corpus).

(** [while not converged]; [None] when the fuel is spent before the loop
    is left. *)
Fixpoint iterate_loop (fuel : nat) (corpus : Corpus) (damping_factor odds : Q)
    (N : Z) (d : Ranks) : option (result Ranks) :=
  match fuel with
  | O => None
  | S fuel' =>
      match pass corpus damping_factor odds d with
      | Raise e => Some (Raise e)
      | Ok (d', converted_count) =>
          if Z.eqb converted_count N then Some (Ok d')
          else iterate_loop fuel' corpus damping_factor odds N d'
      end
  end.

Definition iterate_pagerank (fuel : nat) (corpus : Corpus) (damping_factor : Q)
  : option (result Ranks) :=
  let N := Z.of_nat (length corpus) in
  match div 1 (inject_Z N) with
  | Raise e => Some (Raise e)
  | Ok random_odds =>
      match div (1 - damping_factor) (inject_Z N) with
      | Raise e => Some (Raise e)
      | Ok odds =>
          let d := fill [] (keys corpus) random_odds in
          iterate_loop fuel corpus damping_factor odds N d
      end
  end.

(** ** The data-model invariants of a corpus *)

(** Keys are distinct (a dict) and every link is a page of the corpus. *)
Definition well_formed (corpus : Corpus) : Prop :=
  NoDup (keys corpus) /\
  Forall (fun po => po.2 ⊆ list_to_set (C:=gset page) (keys corpus)) corpus.

#[global] Instance well_formed_dec corpus : Decision (well_formed corpus).
Proof. unfold well_formed. apply _. Defined.

(** Sum of the values of a rank mapping. *)
Definition Qsum (l : list Q) : Q := foldr Qplus 0 l.
Definition total (d : Ranks) : Q := Qsum (values d).

(** The dictionary that maps each key of [ks], in order, to [f k]. *)
Definition tabulate {V : Type} (f : page -> V) (ks : list page) : list (page * V) :=
  map (fun k => (k, f k)) ks.

(** ** Example inputs *)

(** Three pages, every one of them with a link. *)
Definition triangle : Corpus :=
  [("1.html"%string, {["2.html"%string; "3.html"%string]});
   ("2.html"%string, {["3.html"%string]});
   ("3.html"%string, {["1.html"%string]})].

(** Two pages, the first of which has no link. *)
Definition with_dangling : Corpus :=
  [("1.html"%string, ∅); ("2.html"%string, {["1.html"%string]})].

(** The single page without links. *)
Definition single_page : Corpus := [("a.html"%string, ∅)].

(** A generator: the multiples of 37/100 modulo one. *)
Definition lcg : RandomState := fun i => Z.of_nat (i * 37 mod 100) # 100.

(** ** The walk of the sampling estimator *)

(** The pages the sampling loop counts, in order: the current page of each
    of the [turns] turns. *)
Fixpoint walk (corpus : Corpus) (damping_factor : Q) (all_pages : list page)
    (turns : nat) (random_page : page) (g : RandomState) : result (list page) :=
  match turns with
  | O => Ok []
  | S turns' =>
      model ← transition_model corpus random_page damping_factor;
      '(next, g') ← choices all_pages (values model) g;
      rest ← walk corpus damping_factor all_pages turns' next g';
      Ok (random_page :: rest)
  end.

(** Number of visits to [p]. *)
Definition visits (p : page) (visited : list page) : Q :=
  inject_Z (Z.of_nat (length (filter (fun q => q = p) visited))).

(** ** The recurrence of the iterative solver *)

(** The rank a dictionary gives a page. *)
Definition rank_of (d : Ranks) (p : page) : Q :=
  match dict_get d p with
  | Ok v => v
  | Raise _ => 0
  end.

(** The sum over the pages [q] that link to [pg], in the order of the corpus,
    of [damping * r q / outdegree q]. *)
Definition incoming (corpus : Corpus) (damping : Q) (r : page -> Q) (pg : page) : Q :=
  foldl (fun s lo =>
           if decide (pg ∈ lo.2) then s + damping * r lo.1 / set_len lo.2 else s)
        0 corpus.

(** The rank one update gives [pg] when the ranks read are [r]. *)
Definition new_rank (corpus : Corpus) (damping odds : Q) (r : page -> Q) (pg : page) : Q :=
  odds + incoming corpus damping r pg.

(** The ranks after [x] was rewritten. *)
Definition rewrite_page (corpus : Corpus) (damping odds : Q) (r : page -> Q)
    (x : page) : page -> Q :=
  fun q => if decide (q = x) then new_rank corpus damping odds r x else r q.

(** Whether the update of [pg] moves its rank by less than the threshold. *)
Definition settled (corpus : Corpus) (damping odds : Q) (r : page -> Q) (pg : page) : bool :=
  if Qlt_le_dec (Qabs (r pg - new_rank corpus damping odds r pg)) threshold
  then true else false.

(** A pass as a function on ranks: the pages of [todo] rewritten one after
    the other, each from the ranks as they stand. *)
Fixpoint sweep (corpus : Corpus) (damping odds : Q) (r : page -> Q) (c : Z)
    (todo : list page) : (page -> Q) * Z :=
  match todo with
  | [] => (r, c)
  | x :: todo' =>
      sweep corpus damping odds (rewrite_page corpus damping odds r x)
        (if settled corpus damping odds r x then c + 1 else c)%Z todo'
  end.

(** The synchronous (Jacobi) step: every new rank from the previous ranks. *)
Definition jacobi_step (corpus : Corpus) (damping odds : Q) (old : Ranks) : Ranks :=
  tabulate (new_rank corpus damping odds (rank_of old)) (keys corpus).

(** The residual of a page: how far one update would move its rank. *)
Definition residual (corpus : Corpus) (damping odds : Q) (r : page -> Q) (p : page) : Q :=
  new_rank corpus damping odds r p - r p.

(** The sum of the absolute residuals over the pages of the corpus. *)
Definition potential (corpus : Corpus) (damping odds : Q) (r : page -> Q) : Q :=
  Qsum (map (fun p => Qabs (residual corpus damping odds r p)) (keys corpus)).

(** The share of the rank of [x] that reaches [p]. *)
Definition share (corpus : Corpus) (damping : Q) (p x : page) : Q :=
  match dict_get corpus x with
  | Ok out => if decide (p ∈ out) then damping / set_len out else 0
  | Raise _ => 0
  end.

(** ** [crawl]

    The directory is what [os.listdir] and [open(...).read()] present of it:
    the file names, each with the contents of the file.  The matches of the
    regular expression are those [re.findall] returns, and the function that
    computes them is a parameter. *)

(** [s.endswith(suffix)] *)
Definition endswith (s suffix : string) : bool :=
  (String.length suffix <=? String.length s)%nat
  && String.eqb (String.substring (String.length s - String.length suffix)
                   (String.length suffix) s) suffix.

Section Crawl.
Variable findall : string -> list string.

(** The first loop: the links of every HTML file, the file itself excepted. *)
Definition extract_links (directory : list (string * string)) : Corpus :=
  foldl (fun pages entry =>
           let '(filename, contents) := entry in
           if negb (endswith filename ".html") then pages
           else dict_set pages filename
                  (list_to_set (findall contents) ∖ {[filename]}))
        [] directory.

(** The second loop: only the links to pages of the corpus are kept. *)
Definition keep_known_links (pages : Corpus) : result Corpus :=
  for_each (fun pages filename =>
              out ← dict_get pages filename;
              Ok (dict_set pages filename
                    (filter (fun link => link ∈ keys pages) out)))
           pages (keys pages).

Definition crawl (directory : list (string * string)) : result Corpus :=
  keep_known_links (extract_links directory).
End Crawl.

(** ** The constants of the program *)

Definition DAMPING : Q := 85 # 100.
Definition SAMPLES : Z := 10000.

(** ** Auxiliary notions for the further properties *)



(** A number of passes that suffices whatever the corpus. *)
Definition pass_bound (d : Q) : nat :=
  S (Z.to_nat (Qceiling (2000 * d / (1 - d)))).

(** The outcome of a sampling turn with another generator put in. *)
Definition reseed (g : RandomState) (r : result SampleState) : result SampleState :=
  match r with
  | Ok (d, pg, _) => Ok (d, pg, g)
  | Raise e => Raise e
  end.

(** A directory of three files, one of which is no page. *)
Definition site : list (string * string) :=
  [("index.html"%string, "to about, to index, to missing"%string);
   ("notes.txt"%string, "to index"%string);
   ("about.html"%string, "to index"%string)].

(** A stand-in for the matches of the regular expression on [site]. *)
Definition site_links (contents : string) : list string :=
  if String.eqb contents "to about, to index, to missing"
  then ["about.html"%string; "index.html"%string; "missing.html"%string]
  else ["index.html"%string].

(** A corpus with a link to a page it does not have. *)
Definition broken_link : Corpus :=
  [("1.html"%string, {["9.html"%string]}); ("2.html"%string, {["1.html"%string]})].

(** The generator [lcg] for its first four variates, and zero afterwards. *)
Definition lcg4 : RandomState := fun i => if (i <=? 3)%nat then lcg i else 0.

(** Two pages that link to each other. *)
Definition two_cycle : Corpus :=
  [("1.html"%string, {["2.html"%string]}); ("2.html"%string, {["1.html"%string]})].

(** ** [crawl] with the file system

    [crawl] above works on the files as read.  Here the two accesses to the
    file system are explicit, each with what it returns or raises. *)

Record FileSystem : Type := {
  (** [os.listdir(directory)] *)
  listdir : result (list string);
  (** [open(os.path.join(directory, filename)).read()] *)
  read : string -> result string
}.

(** The contents of a file that can be read. *)
Definition contents_of (fs : FileSystem) (filename : string) : string :=
  match read fs filename with
  | Ok contents => contents
  | Raise _ => ""%string
  end.

Section CrawlFiles.
Variable findall : string -> list string.

(** The first loop, reading the files. *)
Definition read_links (fs : FileSystem) : result Corpus :=
  names ← listdir fs;
  for_each (fun pages filename =>
              if negb (endswith filename ".html") then Ok pages
              else
                contents ← read fs filename;
                Ok (dict_set pages filename
                      (list_to_set (findall contents) ∖ {[filename]})))
           [] names.

Definition crawl_files (fs : FileSystem) : result Corpus :=
  pages ← read_links fs;
  keep_known_links pages.
End CrawlFiles.

(** The directory [site] as a file system, and the same with a page that
    cannot be read. *)
Definition site_fs : FileSystem :=
  {| listdir := Ok (map fst site);
     read := fun filename =>
       match dict_get site filename with
       | Ok contents => Ok contents
       | Raise _ => Raise OSError
       end |}.

(** ** The last loop of [sample_pagerank] in binary64

    [d[page] /= n] divides an integer counter by the integer [n]; the
    quotient Python returns is the binary64 quotient of the two, for
    integers below 2^53. *)

Definition binary64_of_Z (z : Z) : PrimFloat.float :=
  if (z <? 0)%Z
  then PrimFloat.opp (PrimFloat.of_uint63 (Uint63.of_Z (- z)))
  else PrimFloat.of_uint63 (Uint63.of_Z z).

Definition div_binary64 (c n : Z) : result PrimFloat.float :=
  if (n =? 0)%Z then Raise ZeroDivisionError
  else Ok (PrimFloat.div (binary64_of_Z c) (binary64_of_Z n)).

(** [for page in d: d[page] /= n], the counters being integers. *)
Definition normalise_binary64 (d : Ranks) (n : Z)
  : result (list (page * PrimFloat.float)) :=
  for_each (fun out pg =>
              v ← dict_get d pg;
              q ← div_binary64 (Qfloor v) n;
              Ok (out ++ [(pg, q)]))
           [] (keys d).

(** [sample_pagerank] with its last loop in binary64. *)
Definition sample_pagerank_binary64 (corpus : Corpus) (damping_factor : Q) (n : Z)
    (g : RandomState) : result (list (page * PrimFloat.float)) :=
  let all_pages := keys corpus in
  '(random_page, g) ← choice all_pages g;
  let d := fill [] (keys corpus) 0 in
  '(d, _, _) ← sample_loop corpus damping_factor all_pages (Z.to_nat n)
                 (d, random_page, g);
  normalise_binary64 d n.

(** The rational a finite binary64 float is. *)
Definition Q_of_binary64 (x : PrimFloat.float) : Q :=
  match FloatOps.Prim2SF x with
  | SpecFloat.S754_finite s m e =>
      (if s then -1 else 1) * inject_Z (Z.pos m) * (2 ^ e)
  | _ => 0
  end.

(** The sum of floats, added from left to right. *)
Definition binary64_sum (l : list PrimFloat.float) : PrimFloat.float :=
  fold_left PrimFloat.add l (binary64_of_Z 0).

(** Number of visits to [p], as an integer. *)
Definition visit_count (p : page) (visited : list page) : Z :=
  Z.of_nat (length (filter (fun q => q = p) visited)).

(** Six pages in a ring. *)
Definition ring6 : Corpus :=
  [("1.html"%string, {["2.html"%string]}); ("2.html"%string, {["3.html"%string]});
   ("3.html"%string, {["4.html"%string]}); ("4.html"%string, {["5.html"%string]});
   ("5.html"%string, {["6.html"%string]}); ("6.html"%string, {["1.html"%string]})].

(** A generator that makes the first page be drawn first and every link be
    followed. *)
Definition start_then_half : RandomState :=
  fun i => match i with O => 0 | S _ => 1 # 2 end.

(** * Properties *)

(** ** The error monad *)

Lemma bind_Ok {A B : Type} (a : A) (k : A -> result B) : (Ok a ≫= k) = k a.
Proof. reflexivity. Qed.

Lemma bind_Raise {A B : Type} (e : PyError) (k : A -> result B) :
  (Raise e ≫= k) = Raise e.
Proof. reflexivity. Qed.

Lemma for_each_cons {S A : Type} (body : S -> A -> result S) s x l :
  for_each body s (x :: l) = (s' ← body s x; for_each body s' l).
Proof. reflexivity. Qed.

Lemma for_each_app {S A : Type} (body : S -> A -> result S) s l1 l2 :
  for_each body s (l1 ++ l2) = (s' ← for_each body s l1; for_each body s' l2).
Proof.
  revert s. induction l1 as [|x l1 IH]; intros s; simpl; [done|].
  destruct (body s x); simpl; [apply IH | done].
Qed.

(** ** Dictionaries *)

Section DictFacts.
Context {V : Type}.
Implicit Types (d : list (page * V)) (k : page) (v : V).

Lemma keys_tabulate (f : page -> V) ks : keys (tabulate f ks) = ks.
Proof.
  unfold keys, tabulate. rewrite map_map. simpl. apply map_id.
Qed.

Lemma values_tabulate (f : page -> V) ks : values (tabulate f ks) = map f ks.
Proof. unfold values, tabulate. by rewrite map_map. Qed.

Lemma dict_get_tabulate (f : page -> V) ks k :
  k ∈ ks -> dict_get (tabulate f ks) k = Ok (f k).
Proof.
  induction ks as [|k' ks IH]; intros Hin; [by apply elem_of_nil in Hin|].
  simpl. destruct (decide (k' = k)) as [->|Hne]; [done|].
  apply IH. apply elem_of_cons in Hin as [?|?]; [congruence|done].
Qed.

Lemma dict_get_tabulate_miss (f : page -> V) ks k :
  k ∉ ks -> dict_get (tabulate f ks) k = Raise KeyError.
Proof.
  induction ks as [|k' ks IH]; intros Hin; [done|].
  simpl. apply not_elem_of_cons in Hin as [? ?].
  destruct (decide (k' = k)); [congruence|auto].
Qed.

Lemma tabulate_ext (f g : page -> V) ks :
  (forall k, k ∈ ks -> f k = g k) -> tabulate f ks = tabulate g ks.
Proof.
  intros H. unfold tabulate. apply map_ext_in. intros k Hk.
  by rewrite H; [|apply list_elem_of_In].
Qed.

Lemma dict_set_miss d k v : k ∉ keys d -> dict_set d k v = d ++ [(k, v)].
Proof.
  induction d as [|[k' v'] d IH]; simpl; intros Hk; [done|].
  apply not_elem_of_cons in Hk as [Hne Hk].
  destruct (decide (k' = k)); [congruence|]. by rewrite IH.
Qed.

Lemma dict_set_tabulate (f : page -> V) ks k v :
  NoDup ks -> k ∈ ks ->
  dict_set (tabulate f ks) k v
  = tabulate (fun q => if decide (q = k) then v else f q) ks.
Proof.
  induction ks as [|k' ks IH]; intros Hnd Hin; [by apply elem_of_nil in Hin|].
  apply NoDup_cons in Hnd as [Hk' Hnd]. simpl.
  destruct (decide (k' = k)) as [->|Hne].
  - f_equal. apply tabulate_ext. intros q Hq.
    destruct (decide (q = k)); [congruence|done].
  - f_equal. apply IH; [done|].
    apply elem_of_cons in Hin as [?|?]; [congruence|done].
Qed.

Lemma fill_app d ks v :
  NoDup ks -> (forall k, k ∈ ks -> k ∉ keys d) ->
  fill d ks v = d ++ tabulate (fun _ => v) ks.
Proof.
  unfold fill. revert d. induction ks as [|k ks IH]; intros d Hnd Hd; simpl.
  - by rewrite app_nil_r.
  - apply NoDup_cons in Hnd as [Hk Hnd].
    rewrite dict_set_miss by (apply Hd; left).
    rewrite IH; [by rewrite <- app_assoc|done|].
    intros q Hq. unfold keys. rewrite map_app. simpl.
    rewrite elem_of_app, list_elem_of_singleton.
    intros [Hq' | ->]; [|done]. by apply (Hd q); [right|].
Qed.

Lemma fill_tabulate ks v : NoDup ks -> fill [] ks v = tabulate (fun _ => v) ks.
Proof.
  intros Hnd. rewrite fill_app; [done|done|]. intros k _. apply not_elem_of_nil.
Qed.

(** In a dict, [d[k]] for a key met while iterating over the items is the
    value of that item. *)
Lemma dict_get_item d k v : NoDup (keys d) -> (k, v) ∈ d -> dict_get d k = Ok v.
Proof.
  induction d as [|[k' v'] d IH]; simpl; intros Hnd Hin;
    [by apply elem_of_nil in Hin|].
  apply NoDup_cons in Hnd as [Hk' Hnd].
  apply elem_of_cons in Hin as [Heq|Hin].
  - inversion Heq; subst. by rewrite decide_True.
  - destruct (decide (k' = k)) as [->|Hne]; [|by apply IH].
    exfalso. apply Hk'. unfold keys. apply list_elem_of_fmap.
    by exists (k, v).
Qed.

Lemma dict_get_Ok_inv d k v : dict_get d k = Ok v -> (k, v) ∈ d.
Proof.
  induction d as [|[k' v'] d IH]; simpl; [done|].
  destruct (decide (k' = k)) as [->|Hne].
  - intros [= ->]. left.
  - intros H. right. auto.
Qed.

Lemma dict_get_miss d k : k ∉ keys d -> dict_get d k = Raise KeyError.
Proof.
  induction d as [|[k' v'] d IH]; simpl; intros Hk; [done|].
  apply not_elem_of_cons in Hk as [Hne Hk].
  destruct (decide (k' = k)); [congruence|auto].
Qed.

Lemma dict_is_tabulate d (dflt : V) :
  NoDup (keys d) ->
  d = tabulate (fun k => match dict_get d k with Ok v => v | Raise _ => dflt end)
        (keys d).
Proof.
  induction d as [|[k v] d IH]; simpl; intros Hnd; [done|].
  apply NoDup_cons in Hnd as [Hk Hnd].
  rewrite decide_True by done. f_equal.
  rewrite IH at 1 by done. apply tabulate_ext. intros q Hq.
  destruct (decide (k = q)) as [->|]; [done|done].
Qed.
End DictFacts.

(** ** Sums of rationals *)

Lemma inject_nat_S (n : nat) :
  inject_Z (Z.of_nat (S n)) == inject_Z (Z.of_nat n) + 1.
Proof. rewrite Nat2Z.inj_succ. unfold Z.succ. by rewrite inject_Z_plus. Qed.

Lemma inject_nat_nonneg (n : nat) : 0 <= inject_Z (Z.of_nat n).
Proof. change 0 with (inject_Z 0). rewrite <- Zle_Qle. lia. Qed.

Lemma inject_nat_pos (n : nat) : n <> 0%nat -> 0 < inject_Z (Z.of_nat n).
Proof. intros Hn. change 0 with (inject_Z 0). rewrite <- Zlt_Qlt. lia. Qed.

Lemma inject_nat_le (n m : nat) :
  (n <= m)%nat -> inject_Z (Z.of_nat n) <= inject_Z (Z.of_nat m).
Proof. intros Hn. rewrite <- Zle_Qle. lia. Qed.

Lemma len_cons {A : Type} (x : A) (l : list A) : len (x :: l) == len l + 1.
Proof. unfold len. simpl length. apply inject_nat_S. Qed.

Lemma div_Ok (a b : Q) : ~ b == 0 -> div a b = Ok (a / b).
Proof.
  intros Hb. unfold div. destruct (Qeq_bool b 0) eqn:E; [|done].
  by apply Qeq_bool_eq in E.
Qed.

Lemma div_zero (a b : Q) : b == 0 -> div a b = Raise ZeroDivisionError.
Proof. intros Hb. unfold div. by rewrite (Qeq_eq_bool _ _ Hb). Qed.

Section Sums.
Context {A : Type}.
Implicit Types (f g : A -> Q) (l : list A).

Lemma Qsum_ext f g l :
  (forall x, x ∈ l -> f x == g x) -> Qsum (map f l) == Qsum (map g l).
Proof.
  induction l as [|x l IH]; simpl; intros H; [reflexivity|].
  rewrite (H x) by left. rewrite IH; [reflexivity|].
  intros y Hy. apply H. by right.
Qed.

Lemma Qsum_le f g l :
  (forall x, x ∈ l -> f x <= g x) -> Qsum (map f l) <= Qsum (map g l).
Proof.
  induction l as [|x l IH]; simpl; intros H; [apply Qle_refl|].
  apply Qplus_le_compat; [apply H; left|]. apply IH.
  intros y Hy. apply H. by right.
Qed.

Lemma Qsum_nonneg f l : (forall x, x ∈ l -> 0 <= f x) -> 0 <= Qsum (map f l).
Proof.
  induction l as [|x l IH]; simpl; intros H; [apply Qle_refl|].
  assert (0 <= f x) by (apply H; left).
  assert (0 <= Qsum (map f l)) by (apply IH; intros y Hy; apply H; by right).
  lra.
Qed.

Lemma Qsum_plus f g l :
  Qsum (map (fun x => f x + g x) l) == Qsum (map f l) + Qsum (map g l).
Proof. induction l as [|x l IH]; simpl; [reflexivity|]. rewrite IH. ring. Qed.

Lemma Qsum_scale c f l :
  Qsum (map (fun x => f x * c) l) == Qsum (map f l) * c.
Proof. induction l as [|x l IH]; simpl; [ring|]. rewrite IH. ring. Qed.

Lemma Qsum_const c l : Qsum (map (fun _ => c) l) == len l * c.
Proof.
  induction l as [|x l IH]; [unfold len; simpl; ring|].
  simpl Qsum. rewrite IH, len_cons. ring.
Qed.

Lemma Qsum_indicator (P : A -> Prop) `{forall x, Decision (P x)} c l :
  Qsum (map (fun x => if decide (P x) then c else 0) l)
  == len (filter P l) * c.
Proof.
  induction l as [|x l IH]; [unfold len; simpl; ring|].
  simpl Qsum. rewrite IH. rewrite filter_cons.
  destruct (decide (P x)); [rewrite len_cons|]; ring.
Qed.
End Sums.

(** The pages of a duplicate-free list that lie in a set. *)
Lemma filter_in_set_le (out : gset page) (ks : list page) :
  NoDup ks -> (length (filter (fun q => q ∈ out) ks) <= size out)%nat.
Proof.
  intros Hnd.
  assert (NoDup (filter (fun q => q ∈ out) ks)) as Hnd' by by apply NoDup_filter.
  rewrite <- (size_list_to_set (C:=gset page) _ Hnd').
  apply subseteq_size. intros q. rewrite elem_of_list_to_set, list_elem_of_filter.
  tauto.
Qed.

Lemma filter_in_set_eq (out : gset page) (ks : list page) :
  NoDup ks -> (forall q, q ∈ out -> q ∈ ks) ->
  length (filter (fun q => q ∈ out) ks) = size out.
Proof.
  intros Hnd Hsub.
  assert (NoDup (filter (fun q => q ∈ out) ks)) as Hnd' by by apply NoDup_filter.
  rewrite <- (size_list_to_set (C:=gset page) _ Hnd').
  f_equal. apply set_eq. intros q.
  rewrite elem_of_list_to_set, list_elem_of_filter.
  split; [tauto | intros Hq; split; auto].
Qed.

(** ** [transition_model] *)

Lemma len_corpus_nonzero {V : Type} (d : list (page * V)) k v :
  dict_get d k = Ok v -> ~ len d == 0.
Proof.
  destruct d as [|kv d]; [done|]. intros _. rewrite len_cons.
  pose proof (inject_nat_nonneg (length d)). unfold len. lra.
Qed.

Lemma set_len_nonzero (out : gset page) : size out <> 0%nat -> ~ set_len out == 0.
Proof.
  intros Hs. pose proof (inject_nat_pos _ Hs). unfold set_len. lra.
Qed.

(** The loop [for page_link in corpus[page]: d[page_link] += prob], started
    after the links of [done] were served. *)
Lemma add_prob_loop (a p : Q) (ks done todo : list page) :
  NoDup ks -> NoDup (done ++ todo) -> (forall q, q ∈ todo -> q ∈ ks) ->
  for_each (fun d page_link =>
              v ← dict_get d page_link; Ok (dict_set d page_link (v + p)))
           (tabulate (fun q => if decide (q ∈ done) then a + p else a) ks) todo
  = Ok (tabulate (fun q => if decide (q ∈ done ++ todo) then a + p else a) ks).
Proof.
  intros Hks. revert done. induction todo as [|x todo IH]; intros done Hnd Hin.
  - simpl. by rewrite app_nil_r.
  - simpl. assert (x ∈ ks) as Hx by (apply Hin; left).
    assert (x ∉ done) as Hxd.
    { apply NoDup_app in Hnd as (_ & Hd & _). intros H. apply (Hd x H). left. }
    rewrite dict_get_tabulate by done. rewrite decide_False by done. simpl.
    rewrite dict_set_tabulate by done.
    rewrite (tabulate_ext _ (fun q => if decide (q ∈ done ++ [x]) then a + p else a)).
    + rewrite IH.
      * by rewrite <- app_assoc.
      * by rewrite <- app_assoc.
      * intros q Hq. apply Hin. by right.
    + intros q _. destruct (decide (q = x)) as [->|Hne].
      * rewrite decide_True; [done|]. apply elem_of_app. right. left.
      * destruct (decide (q ∈ done)) as [Hq|Hq].
        -- rewrite decide_True; [done|]. apply elem_of_app. by left.
        -- rewrite decide_False; [done|]. rewrite elem_of_app, list_elem_of_singleton.
           tauto.
Qed.

(** The distribution returned for a page with links, as a table. *)
Lemma transition_model_linked corpus pg d out :
  NoDup (keys corpus) -> dict_get corpus pg = Ok out -> size out <> 0%nat ->
  (forall q, q ∈ out -> q ∈ keys corpus) ->
  transition_model corpus pg d
  = Ok (tabulate (fun q => if decide (q ∈ out)
                           then (1 - d) / len corpus + d / set_len out
                           else (1 - d) / len corpus) (keys corpus)).
Proof.
  intros Hnd Hget Hsz Hsub. unfold transition_model. rewrite Hget. simpl.
  assert (negb (size out =? 0)%nat = true) as -> by (by destruct (size out)).
  rewrite (div_Ok d (set_len out)) by by apply set_len_nonzero.
  rewrite (div_Ok (1 - d) (len corpus)) by by eapply len_corpus_nonzero.
  simpl. rewrite fill_tabulate by done.
  rewrite (tabulate_ext _ (fun q => if decide (q ∈ @nil page)
                                    then (1 - d) / len corpus + d / set_len out
                                    else (1 - d) / len corpus)).
  2:{ intros q _. rewrite decide_False; [done|]. apply not_elem_of_nil. }
  rewrite add_prob_loop; [|done|apply NoDup_elements|].
  - f_equal. apply tabulate_ext. intros q _. rewrite app_nil_l.
    destruct (decide (q ∈ out)) as [Hq|Hq].
    + rewrite decide_True; [done|]. by apply elem_of_elements.
    + rewrite decide_False; [done|]. by rewrite elem_of_elements.
  - intros q Hq. apply Hsub. by apply elem_of_elements.
Qed.

(** The distribution returned for a page without links, as a table. *)
Lemma transition_model_dangling corpus pg d out :
  NoDup (keys corpus) -> dict_get corpus pg = Ok out -> size out = 0%nat ->
  transition_model corpus pg d = Ok (tabulate (fun _ => 1 / len corpus) (keys corpus)).
Proof.
  intros Hnd Hget Hsz. unfold transition_model. rewrite Hget. simpl.
  rewrite Hsz. simpl.
  rewrite (div_Ok 1 (len corpus)) by by eapply len_corpus_nonzero. simpl.
  by rewrite fill_tabulate.
Qed.

Lemma well_formed_links corpus pg out :
  well_formed corpus -> dict_get corpus pg = Ok out ->
  forall q, q ∈ out -> q ∈ keys corpus.
Proof.
  intros [_ Hcl] Hget q Hq. apply dict_get_Ok_inv in Hget.
  rewrite Forall_forall in Hcl. specialize (Hcl _ Hget). simpl in Hcl.
  apply Hcl in Hq. by apply elem_of_list_to_set in Hq.
Qed.

Lemma dict_get_key {V : Type} (d : list (page * V)) k :
  k ∈ keys d -> exists v, dict_get d k = Ok v.
Proof.
  induction d as [|[k' v'] d IH]; simpl; intros Hk; [by apply elem_of_nil in Hk|].
  destruct (decide (k' = k)); [by eexists|].
  apply IH. apply elem_of_cons in Hk as [?|?]; [congruence|done].
Qed.

(** The values of either table sum to one. *)
Lemma linked_table_total (ks : list page) (out : gset page) (d : Q) :
  NoDup ks -> ks <> [] -> size out <> 0%nat -> (forall q, q ∈ out -> q ∈ ks) ->
  Qsum (map (fun q => if decide (q ∈ out)
                      then (1 - d) / len ks + d / set_len out
                      else (1 - d) / len ks) ks) == 1.
Proof.
  intros Hnd Hne Hsz Hsub.
  rewrite (Qsum_ext _ (fun q => (1 - d) / len ks
                                + (if decide (q ∈ out) then d / set_len out else 0))).
  2:{ intros q _. destruct (decide (q ∈ out)); ring. }
  rewrite Qsum_plus, Qsum_const, (Qsum_indicator (fun q => q ∈ out)).
  unfold len at 3. rewrite filter_in_set_eq by done. fold (set_len out).
  assert (~ len ks == 0).
  { destruct ks; [done|]. rewrite len_cons.
    pose proof (inject_nat_nonneg (length ks)). unfold len. lra. }
  pose proof (set_len_nonzero out Hsz). field. done.
Qed.

Lemma uniform_table_total (ks : list page) :
  ks <> [] -> Qsum (map (fun _ => 1 / len ks) ks) == 1.
Proof.
  intros Hne. rewrite Qsum_const.
  assert (~ len ks == 0).
  { destruct ks; [done|]. rewrite len_cons.
    pose proof (inject_nat_nonneg (length ks)). unfold len. lra. }
  by field.
Qed.

(** ** The claims on [transition_model] *)

(** C5: for a corpus of N pages and a page with L >= 1 links (all of them
    pages of the corpus), [transition_model] returns a mapping over the pages
    of the corpus that gives a linked page (1 - d)/N + d/L and every other
    page (1 - d)/N. *)
Theorem transition_model_with_links corpus pg d out :
  well_formed corpus -> dict_get corpus pg = Ok out -> (1 <= size out)%nat ->
  exists m, transition_model corpus pg d = Ok m /\ keys m = keys corpus /\
    forall q, q ∈ keys corpus ->
      exists v, dict_get m q = Ok v /\
        (q ∈ out -> v == (1 - d) / len corpus + d / set_len out) /\
        (q ∉ out -> v == (1 - d) / len corpus).
Proof.
  intros Hwf Hget Hsz. pose proof (well_formed_links _ _ _ Hwf Hget) as Hsub.
  destruct Hwf as [Hnd _].
  eexists. split; [apply transition_model_linked; [done|done|lia|done]|].
  split; [apply keys_tabulate|]. intros q Hq.
  eexists. split; [by apply dict_get_tabulate|].
  destruct (decide (q ∈ out)); split; intros; (reflexivity || done).
Qed.

Lemma transition_model_with_links_witness :
  exists m, transition_model triangle "1.html" (85 # 100) = Ok m /\
    keys m = keys triangle /\
    forall q, q ∈ keys triangle ->
      exists v, dict_get m q = Ok v /\
        (q ∈ ({["2.html"%string; "3.html"%string]} : gset page) ->
         v == (1 - (85 # 100)) / len triangle
              + (85 # 100) / set_len {["2.html"%string; "3.html"%string]}) /\
        (q ∉ ({["2.html"%string; "3.html"%string]} : gset page) ->
         v == (1 - (85 # 100)) / len triangle).
Proof.
  apply (transition_model_with_links triangle "1.html" (85 # 100)
           {["2.html"%string; "3.html"%string]}).
  - apply (bool_decide_unpack _). vm_compute. exact I.
  - vm_compute. reflexivity.
  - vm_compute. lia.
Defined.

(** C6: for a page without links, [transition_model] returns the uniform
    distribution 1/N over the pages of the corpus, the page itself included,
    whatever the damping factor. *)
Theorem transition_model_no_links corpus pg d out :
  NoDup (keys corpus) -> dict_get corpus pg = Ok out -> size out = 0%nat ->
  exists m, transition_model corpus pg d = Ok m /\ keys m = keys corpus /\
    (forall q, q ∈ keys corpus -> exists v, dict_get m q = Ok v /\ v == 1 / len corpus) /\
    (exists v, dict_get m pg = Ok v /\ v == 1 / len corpus).
Proof.
  intros Hnd Hget Hsz.
  eexists. split; [by eapply transition_model_dangling|].
  split; [apply keys_tabulate|].
  assert (forall q, q ∈ keys corpus ->
            exists v, dict_get (tabulate (fun _ => 1 / len corpus) (keys corpus)) q = Ok v
                      /\ v == 1 / len corpus) as Hall.
  { intros q Hq. eexists. split; [by apply dict_get_tabulate|reflexivity]. }
  split; [done|]. apply Hall.
  apply dict_get_Ok_inv in Hget. unfold keys. apply list_elem_of_fmap.
  by exists (pg, out).
Qed.

Lemma transition_model_no_links_witness :
  exists m, transition_model with_dangling "1.html" (85 # 100) = Ok m /\
    keys m = keys with_dangling /\
    (forall q, q ∈ keys with_dangling ->
       exists v, dict_get m q = Ok v /\ v == 1 / len with_dangling) /\
    (exists v, dict_get m "1.html" = Ok v /\ v == 1 / len with_dangling).
Proof.
  apply (transition_model_no_links with_dangling "1.html" (85 # 100) ∅).
  - apply (bool_decide_unpack _). vm_compute. exact I.
  - vm_compute. reflexivity.
  - vm_compute. reflexivity.
Defined.

(** C7: for a page of a corpus and a damping factor in (0,1), the mapping
    returned by [transition_model] has the pages of the corpus as its keys,
    no negative value, and values that sum to one. *)
Theorem transition_model_distribution corpus pg d :
  well_formed corpus -> pg ∈ keys corpus -> 0 < d -> d < 1 ->
  exists m, transition_model corpus pg d = Ok m /\ keys m = keys corpus /\
    Forall (fun v => 0 <= v) (values m) /\ total m == 1.
Proof.
  intros Hwf Hpg Hd0 Hd1. destruct (dict_get_key _ _ Hpg) as [out Hget].
  pose proof (well_formed_links _ _ _ Hwf Hget) as Hsub.
  destruct Hwf as [Hnd _].
  assert (keys corpus <> []) as Hne by (intros E; rewrite E in Hpg; by apply elem_of_nil in Hpg).
  assert (0 < len corpus) as HN.
  { unfold len. apply inject_nat_pos. destruct corpus; [done|]. simpl. lia. }
  assert (len (keys corpus) = len corpus) as Hlen.
  { unfold len, keys. by rewrite length_map. }
  destruct (decide (size out = 0%nat)) as [Hsz|Hsz].
  - eexists. split; [by eapply transition_model_dangling|].
    split; [apply keys_tabulate|]. unfold total. rewrite values_tabulate. split.
    + apply Forall_forall. intros v Hv. apply list_elem_of_fmap in Hv as (q & -> & _).
      apply Qlt_le_weak, Qlt_shift_div_l; lra.
    + rewrite <- Hlen. by apply uniform_table_total.
  - eexists. split; [by apply transition_model_linked|].
    split; [apply keys_tabulate|]. unfold total. rewrite values_tabulate. split.
    + apply Forall_forall. intros v Hv. apply list_elem_of_fmap in Hv as (q & -> & _).
      assert (0 <= (1 - d) / len corpus) by (apply Qlt_le_weak, Qlt_shift_div_l; lra).
      assert (0 <= d / set_len out).
      { apply Qlt_le_weak, Qlt_shift_div_l; [|lra]. by apply inject_nat_pos. }
      destruct (decide (q ∈ out)); lra.
    + rewrite <- Hlen. by apply linked_table_total.
Qed.

Lemma transition_model_distribution_witness :
  exists m, transition_model triangle "2.html" (85 # 100) = Ok m /\
    keys m = keys triangle /\
    Forall (fun v => 0 <= v) (values m) /\ total m == 1.
Proof.
  apply (transition_model_distribution triangle "2.html" (85 # 100)).
  - apply (bool_decide_unpack _). vm_compute. exact I.
  - apply (bool_decide_unpack _). vm_compute. exact I.
  - reflexivity.
  - reflexivity.
Defined.

(** ** The random source *)

Lemma choice_in {A : Type} (seq : list A) (g : RandomState) :
  seq <> [] -> uniform01 g ->
  exists x, choice seq g = Ok (x, fun i => g (S i)) /\ x ∈ seq.
Proof.
  intros Hne Hg. unfold choice, random.
  destruct (Hg 0%nat) as [Hlo Hhi].
  assert (0 < len seq) as HL.
  { unfold len. apply inject_nat_pos. by destruct seq. }
  set (x := g 0%nat * len seq).
  assert (0 <= x) as Hx0 by (apply Qmult_le_0_compat; lra).
  assert (x < len seq) as Hx1.
  { unfold x. rewrite <- (Qmult_1_l (len seq)) at 2.
    by apply Qmult_lt_compat_r. }
  assert (0 <= Qfloor x)%Z as Hf0.
  { change 0%Z with (Qfloor 0). by apply Qfloor_resp_le. }
  assert (Qfloor x < Z.of_nat (length seq))%Z as Hf1.
  { rewrite Zlt_Qlt. eapply Qle_lt_trans; [apply Qfloor_le|]. exact Hx1. }
  destruct (lookup_lt_is_Some_2 seq (Z.to_nat (Qfloor x))) as [y Hy]; [lia|].
  rewrite Hy. exists y. split; [done|]. by eapply list_elem_of_lookup_2.
Qed.

Lemma choice_nil {A : Type} (g : RandomState) :
  choice (@nil A) g = Raise IndexError.
Proof. reflexivity. Qed.

Lemma running_length acc ws : length (running acc ws) = length ws.
Proof. revert acc. induction ws; intros acc; simpl; [done|]. by rewrite IHws. Qed.

Lemma accumulate_length ws : length (accumulate ws) = length ws.
Proof. destruct ws; simpl; [done|]. by rewrite running_length. Qed.

Lemma running_last acc ws :
  exists t, last (acc :: running acc ws) = Some t /\ t == acc + Qsum ws.
Proof.
  revert acc. induction ws as [|w ws IH]; intros acc.
  - exists acc. split; [done|]. simpl. ring.
  - destruct (IH (acc + w)) as (t & Ht & Heq). exists t. split.
    + simpl running. by rewrite last_cons_cons.
    + rewrite Heq. simpl. ring.
Qed.

Lemma accumulate_last ws :
  ws <> [] -> exists t, last (accumulate ws) = Some t /\ t == Qsum ws.
Proof.
  destruct ws as [|w ws]; [done|]. intros _.
  destruct (running_last w ws) as (t & Ht & Heq). exists t. split; [done|].
  rewrite Heq. reflexivity.
Qed.

Lemma bisect_le a x hi : (bisect a x hi <= hi)%nat.
Proof.
  revert a. induction hi as [|hi IH]; intros [|c a]; simpl; try lia.
  destruct (Qlt_le_dec x c); [lia|]. specialize (IH a). lia.
Qed.

(** A draw from weights of positive total, one per member of a non-empty
    population, returns a member. *)
Lemma choices_in {A : Type} (population : list A) (weights : list Q) g :
  population <> [] -> length weights = length population -> 0 < Qsum weights ->
  exists x, choices population weights g = Ok (x, fun i => g (S i)) /\ x ∈ population.
Proof.
  intros Hne Hlen Hpos. unfold choices, random.
  rewrite accumulate_length, Hlen, Nat.eqb_refl. simpl.
  assert (weights <> []) as Hw by (destruct weights, population; done).
  destruct (accumulate_last _ Hw) as (t & -> & Ht).
  destruct (Qle_bool t 0) eqn:E.
  { apply Qle_bool_iff in E. lra. }
  pose proof (bisect_le (accumulate weights) (g 0%nat * t) (length population - 1)).
  destruct (lookup_lt_is_Some_2 population
              (bisect (accumulate weights) (g 0%nat * t) (length population - 1)))
    as [y Hy].
  { destruct population; [done|]. simpl in *. lia. }
  rewrite Hy. exists y. split; [done|]. by eapply list_elem_of_lookup_2.
Qed.

(** ** [sample_pagerank] *)

Lemma visits_nil p : visits p [] = 0.
Proof. reflexivity. Qed.

Lemma visits_cons p x visited :
  visits p (x :: visited) == (if decide (x = p) then 1 else 0) + visits p visited.
Proof.
  unfold visits. rewrite filter_cons.
  destruct (decide (x = p)); [|ring]. simpl length. rewrite inject_nat_S. ring.
Qed.

Lemma visits_bounds p visited : 0 <= visits p visited /\ visits p visited <= len visited.
Proof.
  split; [apply inject_nat_nonneg|]. apply inject_nat_le, length_filter.
Qed.

Lemma filter_eq_miss (ks : list page) (x : page) :
  x ∉ ks -> filter (fun p => x = p) ks = [].
Proof.
  induction ks as [|k ks IH]; intros Hx; [done|].
  apply not_elem_of_cons in Hx as [Hne Hx]. rewrite filter_cons.
  rewrite decide_False by done. auto.
Qed.

Lemma filter_eq_NoDup (ks : list page) (x : page) :
  NoDup ks -> x ∈ ks -> length (filter (fun p => x = p) ks) = 1%nat.
Proof.
  induction ks as [|k ks IH]; intros Hnd Hx; [by apply elem_of_nil in Hx|].
  apply NoDup_cons in Hnd as [Hk Hnd]. rewrite filter_cons.
  destruct (decide (x = k)) as [->|Hne].
  - by rewrite filter_eq_miss.
  - apply IH; [done|]. apply elem_of_cons in Hx as [?|?]; [congruence|done].
Qed.

(** Every visit is a visit to a page of the corpus, so the visits add up to
    the length of the walk. *)
Lemma visits_total (ks visited : list page) :
  NoDup ks -> Forall (fun x => x ∈ ks) visited ->
  Qsum (map (fun p => visits p visited) ks) == len visited.
Proof.
  intros Hnd. induction visited as [|x visited IH]; intros Hin.
  - rewrite (Qsum_const 0). unfold len at 2. simpl. ring.
  - apply Forall_cons in Hin as [Hx Hin].
    rewrite (Qsum_ext _ (fun p => (if decide (x = p) then 1 else 0) + visits p visited))
      by (intros; apply visits_cons).
    rewrite Qsum_plus, (Qsum_indicator (fun p => x = p)), IH by done.
    unfold len at 1. rewrite filter_eq_NoDup by done. rewrite len_cons.
    change (inject_Z (Z.of_nat 1)) with 1. ring.
Qed.

Section Sampling.
Variables (corpus : Corpus) (d : Q).
Hypothesis Hwf : well_formed corpus.

Let ks := keys corpus.

Lemma well_formed_NoDup : NoDup ks.
Proof. apply Hwf. Qed.

(** The weights handed to [random.choices]: one per page, of total one. *)
Lemma model_weights pg :
  pg ∈ ks ->
  exists m, transition_model corpus pg d = Ok m /\
    length (values m) = length ks /\ Qsum (values m) == 1.
Proof.
  intros Hpg. destruct (dict_get_key _ _ Hpg) as [out Hget].
  pose proof (well_formed_links _ _ _ Hwf Hget) as Hsub.
  pose proof well_formed_NoDup as Hnd.
  assert (ks <> []) as Hne
      by (intros E; rewrite E in Hpg; by apply elem_of_nil in Hpg).
  assert (len ks = len corpus) as Hlen.
  { unfold len, ks, keys. by rewrite length_map. }
  destruct (decide (size out = 0%nat)) as [Hsz|Hsz].
  - eexists. split; [by eapply transition_model_dangling|].
    rewrite values_tabulate, length_map. split; [done|].
    rewrite <- Hlen. by apply uniform_table_total.
  - eexists. split; [by apply transition_model_linked|].
    rewrite values_tabulate, length_map. split; [done|].
    rewrite <- Hlen. by apply linked_table_total.
Qed.

(** One turn: the counter of the current page goes up by one, and the
    next page is a page of the corpus. *)
Lemma sample_step_spec (f : page -> Q) cur g :
  cur ∈ ks ->
  exists next,
    next ∈ ks /\
    (exists m, transition_model corpus cur d = Ok m /\
               choices ks (values m) g = Ok (next, fun i => g (S i))) /\
    sample_step corpus d ks (tabulate f ks, cur, g)
    = Ok (tabulate (fun q => if decide (q = cur) then f cur + 1 else f q) ks,
          next, fun i => g (S i)).
Proof.
  intros Hcur. destruct (model_weights cur Hcur) as (m & Hm & Hlen & Hsum).
  destruct (choices_in ks (values m) g) as (next & Hch & Hnext).
  - intros E. rewrite E in Hcur. by apply elem_of_nil in Hcur.
  - done.
  - rewrite Hsum. reflexivity.
  - exists next. split; [done|]. split; [by exists m|].
    unfold sample_step. rewrite dict_get_tabulate by done. simpl.
    rewrite Hm. simpl. rewrite Hch. simpl.
    by rewrite dict_set_tabulate by (done || apply well_formed_NoDup).
Qed.

(** The loop: it counts the pages of the walk. *)
Lemma sample_loop_spec turns (f : page -> Q) cur g :
  cur ∈ ks ->
  exists visited f' cur' g',
    walk corpus d ks turns cur g = Ok visited /\
    length visited = turns /\ Forall (fun x => x ∈ ks) visited /\
    sample_loop corpus d ks turns (tabulate f ks, cur, g)
    = Ok (tabulate f' ks, cur', g') /\
    forall p, f' p == f p + visits p visited.
Proof.
  revert f cur g. induction turns as [|turns IH]; intros f cur g Hcur.
  - exists [], f, cur, g. repeat split; try done.
    intros p. rewrite visits_nil. ring.
  - destruct (sample_step_spec f cur g Hcur)
      as (next & Hnext & (m & Hm & Hch) & Hstep).
    destruct (IH (fun q => if decide (q = cur) then f cur + 1 else f q)
                next (fun i => g (S i)) Hnext)
      as (visited & f' & cur' & g' & Hwalk & Hlen & Hall & Hloop & Hf').
    exists (cur :: visited), f', cur', g'. repeat split.
    + simpl. rewrite Hm. simpl. rewrite Hch. simpl. by rewrite Hwalk.
    + simpl. by rewrite Hlen.
    + by apply Forall_cons.
    + change (sample_loop corpus d ks (S turns) (tabulate f ks, cur, g))
        with (st' ← sample_step corpus d ks (tabulate f ks, cur, g);
              sample_loop corpus d ks turns st').
      rewrite Hstep. exact Hloop.
    + intros p. rewrite Hf', visits_cons.
      destruct (decide (p = cur)) as [->|Hne].
      * rewrite decide_True by done. ring.
      * rewrite decide_False by done. ring.
Qed.
End Sampling.

(** The final loop [for page in d: d[page] /= n], started after the pages of
    [done] were divided. *)
Lemma normalise_loop (f : page -> Q) (n : Z) (ks done todo : list page) :
  NoDup ks -> NoDup (done ++ todo) -> (forall q, q ∈ todo -> q ∈ ks) ->
  n <> 0%Z ->
  for_each (fun d pg =>
              v ← dict_get d pg; q ← div v (inject_Z n); Ok (dict_set d pg q))
           (tabulate (fun q => if decide (q ∈ done) then f q / inject_Z n else f q) ks)
           todo
  = Ok (tabulate (fun q => if decide (q ∈ done ++ todo)
                           then f q / inject_Z n else f q) ks).
Proof.
  intros Hks. revert done. induction todo as [|x todo IH]; intros done Hnd Hin Hn.
  - simpl. by rewrite app_nil_r.
  - simpl. assert (x ∈ ks) as Hx by (apply Hin; left).
    assert (x ∉ done) as Hxd.
    { apply NoDup_app in Hnd as (_ & Hd & _). intros H. apply (Hd x H). left. }
    rewrite dict_get_tabulate by done. rewrite decide_False by done. simpl.
    rewrite div_Ok.
    2:{ change 0 with (inject_Z 0). by rewrite inject_Z_injective. }
    simpl. rewrite dict_set_tabulate by done.
    rewrite (tabulate_ext _ (fun q => if decide (q ∈ done ++ [x])
                                      then f q / inject_Z n else f q)).
    + rewrite IH.
      * by rewrite <- app_assoc.
      * by rewrite <- app_assoc.
      * intros q Hq. apply Hin. by right.
      * done.
    + intros q _. destruct (decide (q = x)) as [->|Hne].
      * rewrite decide_True; [done|]. apply elem_of_app. right. left.
      * destruct (decide (q ∈ done)) as [Hq|Hq].
        -- rewrite decide_True; [done|]. apply elem_of_app. by left.
        -- rewrite decide_False; [done|]. rewrite elem_of_app, list_elem_of_singleton.
           tauto.
Qed.

Lemma normalise_tabulate (f : page -> Q) (n : Z) (ks : list page) :
  NoDup ks -> n <> 0%Z ->
  normalise (tabulate f ks) n = Ok (tabulate (fun q => f q / inject_Z n) ks).
Proof.
  intros Hnd Hn. unfold normalise. rewrite keys_tabulate.
  rewrite (tabulate_ext f (fun q => if decide (q ∈ @nil page)
                                    then f q / inject_Z n else f q)).
  2:{ intros q _. rewrite decide_False; [done|]. apply not_elem_of_nil. }
  rewrite normalise_loop by done. f_equal. apply tabulate_ext.
  intros q Hq. by rewrite decide_True.
Qed.

(** The estimator: it returns, for each page, its visits over [n]. *)
Lemma sample_pagerank_counts corpus d n g :
  well_formed corpus -> corpus <> [] -> (1 <= n)%Z -> uniform01 g ->
  exists first visited f,
    choice (keys corpus) g = Ok (first, fun i => g (S i)) /\
    walk corpus d (keys corpus) (Z.to_nat n) first (fun i => g (S i)) = Ok visited /\
    length visited = Z.to_nat n /\ Forall (fun x => x ∈ keys corpus) visited /\
    sample_pagerank corpus d n g = Ok (tabulate f (keys corpus)) /\
    forall p, f p == visits p visited / inject_Z n.
Proof.
  intros Hwf Hne Hn Hg.
  destruct (choice_in (keys corpus) g) as (first & Hch & Hfirst);
    [by destruct corpus|done|].
  destruct (sample_loop_spec corpus d Hwf (Z.to_nat n) (fun _ => 0) first
              (fun i => g (S i)) Hfirst)
    as (visited & f' & cur' & g' & Hwalk & Hlen & Hall & Hloop & Hf').
  exists first, visited, (fun q => f' q / inject_Z n).
  repeat split; try done.
  - unfold sample_pagerank. rewrite Hch. simpl.
    rewrite fill_tabulate by apply Hwf. rewrite Hloop. simpl.
    apply normalise_tabulate; [apply Hwf|lia].
  - intros p. rewrite Hf'. apply Qdiv_comp; [ring|reflexivity].
Qed.

Lemma len_walk (visited : list page) (n : Z) :
  (1 <= n)%Z -> length visited = Z.to_nat n -> len visited = inject_Z n.
Proof. intros Hn Hlen. unfold len. rewrite Hlen. f_equal. lia. Qed.

Lemma fill_cons_head {V : Type} k (v1 : V) d ks v :
  exists v' rest, fill ((k, v1) :: d) ks v = (k, v') :: rest.
Proof.
  unfold fill. revert v1 d. induction ks as [|a ks IH]; intros v1 d; simpl.
  - by eexists _, _.
  - destruct (decide (k = a)) as [->|Hne]; apply IH.
Qed.

Lemma fill_head {V : Type} k ks (v : V) :
  exists v' rest, fill [] (k :: ks) v = (k, v') :: rest.
Proof. apply (fill_cons_head k v [] ks v). Qed.

Lemma lcg_uniform : uniform01 lcg.
Proof.
  intros i. unfold lcg, Qle, Qlt. simpl.
  pose proof (Nat.mod_upper_bound (i * 37) 100). lia.
Qed.

Lemma div_binary64_Ok (c n : Z) :
  n <> 0%Z ->
  div_binary64 c n = Ok (PrimFloat.div (binary64_of_Z c) (binary64_of_Z n)).
Proof. intros Hn. unfold div_binary64. by rewrite (proj2 (Z.eqb_neq n 0) Hn). Qed.

(** The last loop in binary64, after the pages of [out] were divided. *)
Lemma normalise_binary64_loop (f : page -> Q) (n : Z) (ks todo : list page)
    (out : list (page * PrimFloat.float)) :
  (forall q, q ∈ todo -> q ∈ ks) -> n <> 0%Z ->
  for_each (fun out pg =>
              v ← dict_get (tabulate f ks) pg;
              q ← div_binary64 (Qfloor v) n;
              Ok (out ++ [(pg, q)]))
           out todo
  = Ok (out ++ tabulate (fun p => PrimFloat.div (binary64_of_Z (Qfloor (f p)))
                                    (binary64_of_Z n)) todo).
Proof.
  intros Hin Hn. revert out. induction todo as [|x todo IH]; intros out.
  - simpl. by rewrite app_nil_r.
  - rewrite for_each_cons. cbv beta.
    rewrite dict_get_tabulate by (apply Hin; left).
    rewrite bind_Ok, (div_binary64_Ok (Qfloor (f x)) n) by done.
    rewrite !bind_Ok, IH by (intros q Hq; apply Hin; by right).
    by rewrite <- app_assoc.
Qed.

(** The estimator with its last loop in binary64: each value is the binary64
    quotient of the visits to the page by [n]. *)
Lemma sample_pagerank_binary64_counts corpus d n g first visited :
  well_formed corpus -> (1 <= n)%Z ->
  choice (keys corpus) g = Ok (first, fun i => g (S i)) ->
  walk corpus d (keys corpus) (Z.to_nat n) first (fun i => g (S i)) = Ok visited ->
  sample_pagerank_binary64 corpus d n g
  = Ok (tabulate (fun p => PrimFloat.div (binary64_of_Z (visit_count p visited))
                             (binary64_of_Z n)) (keys corpus)).
Proof.
  intros Hwf Hn Hch Hwalk.
  assert (first ∈ keys corpus) as Hfirst.
  { unfold choice, random in Hch.
    destruct (keys corpus !! _) as [x|] eqn:Hx; [|done].
    injection Hch as ->. by eapply list_elem_of_lookup_2. }
  destruct (sample_loop_spec corpus d Hwf (Z.to_nat n) (fun _ => 0) first
              (fun i => g (S i)) Hfirst)
    as (visited' & f' & cur' & g' & Hwalk' & _ & _ & Hloop & Hf').
  rewrite Hwalk in Hwalk'. injection Hwalk' as <-.
  unfold sample_pagerank_binary64. rewrite Hch. simpl.
  rewrite fill_tabulate by apply Hwf. rewrite Hloop. simpl.
  unfold normalise_binary64. rewrite keys_tabulate.
  rewrite normalise_binary64_loop by (done || lia).
  rewrite app_nil_l. f_equal. apply tabulate_ext. intros p _.
  f_equal. f_equal. rewrite (Qfloor_comp _ (inject_Z (visit_count p visited))).
  - apply Qfloor_Z.
  - rewrite Hf'. unfold visits, visit_count. ring.
Qed.

(** C8, as the code has it: for a non-empty corpus and n >= 1,
    [sample_pagerank] returns a mapping over the pages of the corpus whose
    value for a page is the number of visits to that page during the n-step
    walk, divided by n (in the code, the binary64 quotient of the two); each
    quotient lies in [0, 1], and the visits sum to n. *)
Theorem sample_pagerank_visit_frequencies corpus d n g :
  well_formed corpus -> corpus <> [] -> (1 <= n)%Z -> uniform01 g ->
  exists first visited ranks,
    choice (keys corpus) g = Ok (first, fun i => g (S i)) /\
    walk corpus d (keys corpus) (Z.to_nat n) first (fun i => g (S i)) = Ok visited /\
    length visited = Z.to_nat n /\
    sample_pagerank corpus d n g = Ok ranks /\
    keys ranks = keys corpus /\
    (forall p, p ∈ keys corpus ->
       exists v, dict_get ranks p = Ok v /\
                 v == visits p visited / inject_Z n /\ 0 <= v /\ v <= 1) /\
    Qsum (map (fun p => visits p visited) (keys corpus)) == inject_Z n /\
    sample_pagerank_binary64 corpus d n g
    = Ok (tabulate (fun p => PrimFloat.div (binary64_of_Z (visit_count p visited))
                               (binary64_of_Z n)) (keys corpus)).
Proof.
  intros Hwf Hne Hn Hg.
  destruct (sample_pagerank_counts corpus d n g Hwf Hne Hn Hg)
    as (first & visited & f & Hch & Hwalk & Hlen & Hall & Hrun & Hf).
  pose proof (len_walk visited n Hn Hlen) as HL.
  assert (0 < inject_Z n) as Hpos.
  { change 0 with (inject_Z 0). rewrite <- Zlt_Qlt. lia. }
  exists first, visited, (tabulate f (keys corpus)).
  split; [done|]. split; [done|]. split; [done|]. split; [done|].
  split; [apply keys_tabulate|]. split; [|split].
  - intros p Hp. exists (f p). split; [by apply dict_get_tabulate|].
    split; [apply Hf|]. rewrite Hf.
    destruct (visits_bounds p visited) as [Hlo Hhi]. rewrite HL in Hhi. split.
    + apply Qle_shift_div_l; [done|]. lra.
    + apply Qle_shift_div_r; [done|]. lra.
  - rewrite visits_total; [by rewrite HL|apply Hwf|done].
  - by apply (sample_pagerank_binary64_counts corpus d n g first visited).
Qed.

Lemma sample_pagerank_visit_frequencies_witness :
  exists first visited ranks,
    choice (keys triangle) lcg = Ok (first, fun i => lcg (S i)) /\
    walk triangle (85 # 100) (keys triangle) (Z.to_nat 3) first
      (fun i => lcg (S i)) = Ok visited /\
    length visited = Z.to_nat 3 /\
    sample_pagerank triangle (85 # 100) 3 lcg = Ok ranks /\
    keys ranks = keys triangle /\
    (forall p, p ∈ keys triangle ->
       exists v, dict_get ranks p = Ok v /\
                 v == visits p visited / inject_Z 3 /\ 0 <= v /\ v <= 1) /\
    Qsum (map (fun p => visits p visited) (keys triangle)) == inject_Z 3 /\
    sample_pagerank_binary64 triangle (85 # 100) 3 lcg
    = Ok (tabulate (fun p => PrimFloat.div (binary64_of_Z (visit_count p visited))
                               (binary64_of_Z 3)) (keys triangle)).
Proof.
  apply (sample_pagerank_visit_frequencies triangle (85 # 100) 3 lcg).
  - apply (bool_decide_unpack _). vm_compute. exact I.
  - discriminate.
  - lia.
  - apply lcg_uniform.
Defined.

(** C8 fails as stated: the values need not sum exactly to one.  On the ring
    of six pages, a walk of six steps visits every page once; each value is
    the float nearest to 1/6, and the six of them sum to 1 - 2^-54, which the
    addition of the floats from left to right rounds to 1 - 2^-53. *)
Lemma sample_pagerank_sum_inexact :
  exists ranks,
    sample_pagerank_binary64 ring6 (85 # 100) 6 start_then_half = Ok ranks /\
    keys ranks = keys ring6 /\
    Forall (fun v => v = PrimFloat.div (binary64_of_Z 1) (binary64_of_Z 6))
           (values ranks) /\
    PrimFloat.eqb (binary64_sum (values ranks)) (binary64_of_Z 1) = false /\
    ~ Qsum (map Q_of_binary64 (values ranks)) == 1.
Proof.
  eexists. split; [vm_compute; reflexivity|]. split; [reflexivity|].
  split; [|split].
  - repeat constructor.
  - vm_compute. reflexivity.
  - vm_compute. discriminate.
Qed.

(** C9, as the code has it: [sample_pagerank] raises when the sample count is
    zero or the corpus is empty. *)
Theorem sample_pagerank_raises corpus d n g :
  n = 0%Z \/ corpus = [] -> raises (sample_pagerank corpus d n g).
Proof.
  intros [-> | ->]; [|by exists IndexError].
  unfold sample_pagerank.
  destruct (choice (keys corpus) g) as [[first g']|e] eqn:Hch;
    [|by exists e].
  simpl. destruct corpus as [|[k out] corpus]; [discriminate Hch|].
  change (keys ((k, out) :: corpus)) with (k :: keys corpus).
  destruct (fill_head k (keys corpus) 0) as (v & rest & ->).
  exists ZeroDivisionError. unfold normalise. simpl.
  by rewrite decide_True.
Qed.

Lemma sample_pagerank_raises_witness :
  raises (sample_pagerank single_page (85 # 100) 0 lcg).
Proof.
  apply (sample_pagerank_raises single_page (85 # 100) 0 lcg).
  left. reflexivity.
Defined.

(** C9 fails as stated: a negative sample count on a non-empty corpus makes
    [sample_pagerank] return a mapping (of zeros). *)
Lemma sample_pagerank_negative_count :
  (-1 <= 0)%Z /\
  sample_pagerank single_page (85 # 100) (-1) lcg = Ok [("a.html"%string, 0 / inject_Z (-1))] /\
  ~ raises (sample_pagerank single_page (85 # 100) (-1) lcg).
Proof.
  split; [lia|]. split; [reflexivity|]. intros [e He]. discriminate He.
Qed.

(** ** [iterate_pagerank]: the loops as functions on ranks *)

Section Solver.
Variables (corpus : Corpus) (damping odds : Q).
Hypothesis Hnd : NoDup (keys corpus).

Let ks := keys corpus.

(** The inner loop computes [incoming]. *)
Lemma summation_loop (r : page -> Q) pg (l : Corpus) (s : Q) :
  (forall lo, lo ∈ l -> lo ∈ corpus) ->
  for_each (fun summation link =>
              out ← dict_get corpus link;
              if decide (pg ∈ out) then
                v ← dict_get (tabulate r ks) link;
                t ← div (damping * v) (set_len out);
                Ok (summation + t)
              else Ok summation)
           s (keys l)
  = Ok (foldl (fun s lo =>
                 if decide (pg ∈ lo.2)
                 then s + damping * r lo.1 / set_len lo.2 else s) s l).
Proof.
  revert s. induction l as [|[link out] l IH]; intros s Hsub; [done|].
  assert ((link, out) ∈ corpus) as Hin by (apply Hsub; left).
  simpl. rewrite (dict_get_item corpus link out Hnd Hin). simpl.
  assert (forall lo, lo ∈ l -> lo ∈ corpus) as Hsub'
      by (intros lo Hlo; apply Hsub; by right).
  destruct (decide (pg ∈ out)) as [Hpg|Hpg]; [|by apply IH].
  rewrite dict_get_tabulate.
  2:{ unfold ks, keys. apply list_elem_of_fmap. by exists (link, out). }
  simpl. rewrite div_Ok.
  2:{ apply set_len_nonzero. intros Hz. apply size_empty_inv in Hz.
      apply leibniz_equiv in Hz. subst out. by apply not_elem_of_empty in Hpg. }
  simpl. by apply IH.
Qed.

Lemma summation_of_tabulate (r : page -> Q) pg :
  summation_of corpus damping (tabulate r ks) pg = Ok (incoming corpus damping r pg).
Proof. unfold summation_of. by apply summation_loop. Qed.

(** The body of the outer loop rewrites one page. *)
Lemma update_page_tabulate (r : page -> Q) (c : Z) pg :
  pg ∈ ks ->
  update_page corpus damping odds (tabulate r ks, c) pg
  = Ok (tabulate (rewrite_page corpus damping odds r pg) ks,
        if settled corpus damping odds r pg then (c + 1)%Z else c).
Proof.
  intros Hpg. unfold update_page. rewrite summation_of_tabulate. simpl.
  rewrite dict_get_tabulate by done. simpl.
  rewrite dict_set_tabulate by done. unfold settled, new_rank.
  by destruct (Qlt_le_dec _ _).
Qed.

Lemma sweep_loop (r : page -> Q) (c : Z) (todo : list page) :
  (forall p, p ∈ todo -> p ∈ ks) ->
  for_each (update_page corpus damping odds) (tabulate r ks, c) todo
  = Ok (tabulate (sweep corpus damping odds r c todo).1 ks,
        (sweep corpus damping odds r c todo).2).
Proof.
  revert r c. induction todo as [|x todo IH]; intros r c Hsub; [done|].
  rewrite for_each_cons, update_page_tabulate by (apply Hsub; left).
  rewrite bind_Ok. apply IH. intros p Hp. apply Hsub. by right.
Qed.

(** A pass is a sweep over the pages of the corpus. *)
Lemma pass_tabulate (r : page -> Q) :
  pass corpus damping odds (tabulate r ks)
  = Ok (tabulate (sweep corpus damping odds r 0 ks).1 ks,
        (sweep corpus damping odds r 0 ks).2).
Proof. unfold pass. by apply sweep_loop. Qed.
End Solver.

(** ** The residuals shrink *)

Lemma Qsum_pick {V : Type} (d : list (page * V)) (x : page) (h : V -> Q) :
  NoDup (keys d) ->
  Qsum (map (fun kv => if decide (kv.1 = x) then h kv.2 else 0) d)
  == match dict_get d x with Ok v => h v | Raise _ => 0 end.
Proof.
  induction d as [|[k v] d IH]; intros Hnd; [reflexivity|].
  apply NoDup_cons in Hnd as [Hk Hnd]. simpl.
  destruct (decide (k = x)) as [->|Hne]; [|rewrite IH by done; ring].
  rewrite IH by done. rewrite dict_get_miss by done. ring.
Qed.

Lemma Qsum_single (ks : list page) (x : page) (a : page -> Q) :
  NoDup ks -> x ∈ ks ->
  Qsum (map (fun p => if decide (p = x) then a p else 0) ks) == a x.
Proof.
  intros Hnd Hx.
  rewrite (Qsum_ext _ (fun p => if decide (x = p) then a x else 0)).
  2:{ intros p _. destruct (decide (p = x)) as [->|Hne].
      - by rewrite decide_True.
      - by rewrite decide_False. }
  rewrite (Qsum_indicator (fun p => x = p)). unfold len.
  rewrite filter_eq_NoDup by done. change (inject_Z (Z.of_nat 1)) with 1. ring.
Qed.

Section Residuals.
Variables (corpus : Corpus) (damping odds : Q).
Hypothesis Hnd : NoDup (keys corpus).
Hypothesis Hd0 : 0 <= damping.

Let ks := keys corpus.

Lemma incoming_fold (r : page -> Q) pg (l : Corpus) (s : Q) :
  foldl (fun s lo =>
           if decide (pg ∈ lo.2) then s + damping * r lo.1 / set_len lo.2 else s)
        s l
  == s + Qsum (map (fun lo => if decide (pg ∈ lo.2)
                              then damping * r lo.1 / set_len lo.2 else 0) l).
Proof.
  revert s. induction l as [|lo l IH]; intros s; simpl; [ring|].
  rewrite IH. destruct (decide (pg ∈ lo.2)); ring.
Qed.

Lemma incoming_sum (r : page -> Q) pg :
  incoming corpus damping r pg
  == Qsum (map (fun lo => if decide (pg ∈ lo.2)
                          then damping * r lo.1 / set_len lo.2 else 0) corpus).
Proof. unfold incoming. rewrite incoming_fold. ring. Qed.

(** Rewriting [x] moves what [p] receives by the share of the move. *)
Lemma incoming_rewrite (r : page -> Q) (x p : page) :
  incoming corpus damping (rewrite_page corpus damping odds r x) p
  == incoming corpus damping r p
     + share corpus damping p x * residual corpus damping odds r x.
Proof.
  set (delta := residual corpus damping odds r x).
  rewrite !incoming_sum.
  rewrite (Qsum_ext _
    (fun lo => (if decide (p ∈ lo.2) then damping * r lo.1 / set_len lo.2 else 0)
               + (if decide (lo.1 = x)
                  then (fun out : gset page => (if decide (p ∈ out)
                                    then damping / set_len out else 0) * delta) lo.2
                  else 0))).
  - rewrite Qsum_plus. apply Qplus_comp; [reflexivity|].
    pose proof (Qsum_pick corpus x
                  (fun out : gset page =>
                     (if decide (p ∈ out) then damping / set_len out else 0)
                     * delta) Hnd) as Hpick.
    etransitivity; [apply Hpick|]. unfold share.
    destruct (dict_get corpus x); [reflexivity|ring].
  - intros [link out] Hlo. simpl. unfold rewrite_page.
    destruct (decide (p ∈ out)) as [Hp|Hp].
    + assert (~ set_len out == 0) as Hsz.
      { apply set_len_nonzero. intros Hz. apply size_empty_inv in Hz.
        apply leibniz_equiv in Hz. subst out. by apply not_elem_of_empty in Hp. }
      destruct (decide (link = x)) as [->|Hne].
      * unfold delta, residual. by field.
      * by field.
    + destruct (decide (link = x)); ring.
Qed.

Lemma share_nonneg (p x : page) : 0 <= share corpus damping p x.
Proof.
  unfold share. destruct (dict_get corpus x) as [out|]; [|apply Qle_refl].
  destruct (decide (p ∈ out)) as [Hp|Hp]; [|apply Qle_refl].
  apply Qle_shift_div_l; [|lra]. apply inject_nat_pos.
  intros Hz. apply size_empty_inv in Hz. apply leibniz_equiv in Hz.
  subst out. by apply not_elem_of_empty in Hp.
Qed.

(** What a page hands out is at most [damping] times its rank. *)
Lemma share_column (x : page) :
  Qsum (map (fun p => share corpus damping p x) ks) <= damping.
Proof.
  unfold share. destruct (dict_get corpus x) as [out|].
  2:{ rewrite (Qsum_const 0). lra. }
  rewrite (Qsum_indicator (fun p => p ∈ out)).
  pose proof (filter_in_set_le out ks Hnd) as Hle.
  apply inject_nat_le in Hle.
  fold (len (filter (fun p => p ∈ out) ks)) in Hle. fold (set_len out) in Hle.
  pose proof (inject_nat_nonneg (length (filter (fun p => p ∈ out) ks))) as Hlo.
  fold (len (filter (fun p => p ∈ out) ks)) in Hlo.
  destruct (decide (size out = 0%nat)) as [Hz|Hz].
  - assert (set_len out == 0) as E by (unfold set_len; by rewrite Hz).
    assert (len (filter (fun p => p ∈ out) ks) == 0) as -> by lra. lra.
  - assert (0 < set_len out) as Hpos by by apply inject_nat_pos.
    assert (0 <= damping / set_len out) as Hq
        by (apply Qle_shift_div_l; [done|lra]).
    apply Qle_trans with (set_len out * (damping / set_len out)).
    + apply Qmult_le_compat_r; done.
    + apply Qle_lteq. right. field. lra.
Qed.

(** One update lowers the potential by at least [(1 - damping)] times the
    move it makes. *)
Lemma potential_step (r : page -> Q) (x : page) :
  x ∈ ks ->
  potential corpus damping odds (rewrite_page corpus damping odds r x)
  <= potential corpus damping odds r
     - (1 - damping) * Qabs (residual corpus damping odds r x).
Proof.
  intros Hx.
  set (delta := residual corpus damping odds r x).
  set (r' := rewrite_page corpus damping odds r x).
  assert (forall p, Qabs (residual corpus damping odds r' p)
                    <= (Qabs (residual corpus damping odds r p)
                        - (if decide (p = x)
                           then Qabs (residual corpus damping odds r p) else 0))
                       + share corpus damping p x * Qabs delta) as Hpoint.
  { intros p. pose proof (share_nonneg p x) as Hs.
    assert (residual corpus damping odds r' p
            == (if decide (p = x) then 0 else residual corpus damping odds r p)
               + share corpus damping p x * delta) as ->.
    { unfold residual at 1. unfold new_rank. unfold r' at 1.
      rewrite incoming_rewrite. fold delta. unfold r', rewrite_page.
      destruct (decide (p = x)) as [->|Hne].
      - unfold new_rank. ring.
      - unfold residual, new_rank. ring. }
    eapply Qle_trans; [apply Qabs_triangle|].
    rewrite Qabs_Qmult, (Qabs_pos (share corpus damping p x)) by done.
    destruct (decide (p = x)).
    - change (Qabs 0) with 0. lra.
    - lra. }
  unfold potential. fold ks.
  eapply Qle_trans; [apply Qsum_le; intros p _; apply Hpoint|].
  rewrite Qsum_plus, Qsum_scale.
  rewrite (Qsum_ext _
    (fun p => Qabs (residual corpus damping odds r p)
              + (if decide (p = x)
                 then (fun p => - Qabs (residual corpus damping odds r p)) p
                 else 0))).
  2:{ intros p _. destruct (decide (p = x)); ring. }
  rewrite Qsum_plus, Qsum_single by done.
  pose proof (share_column x) as Hcol.
  pose proof (Qabs_nonneg delta) as Hdelta. fold delta.
  assert (Qsum (map (fun p => share corpus damping p x) ks) * Qabs delta
          <= damping * Qabs delta) by (by apply Qmult_le_compat_r).
  lra.
Qed.
End Residuals.

(** ** The loop is left *)

Section Termination.
Variables (corpus : Corpus) (damping odds : Q).
Hypothesis Hnd : NoDup (keys corpus).
Hypothesis Hd0 : 0 <= damping.
Hypothesis Hd1 : damping < 1.

Let ks := keys corpus.
Let N := Z.of_nat (length corpus).

(** What a pass that does not settle must take off the potential. *)
Let quantum := (1 - damping) * threshold.

Lemma quantum_pos : 0 < quantum.
Proof. unfold quantum, threshold. apply Qmult_lt_0_compat; [lra|reflexivity]. Qed.

Lemma potential_nonneg (r : page -> Q) : 0 <= potential corpus damping odds r.
Proof. unfold potential. apply Qsum_nonneg. intros p _. apply Qabs_nonneg. Qed.

Lemma settled_false (r : page -> Q) (x : page) :
  settled corpus damping odds r x = false ->
  threshold <= Qabs (residual corpus damping odds r x).
Proof.
  unfold settled, residual. destruct (Qlt_le_dec _ _) as [|Hle]; [done|].
  intros _. by rewrite Qabs_Qminus.
Qed.

(** A sweep over [todo] counts at most the pages of [todo], and lowers the
    potential by a quantum for each page it does not count. *)
Lemma sweep_potential (todo : list page) (r : page -> Q) (c : Z) :
  (forall p, p ∈ todo -> p ∈ ks) ->
  (c <= (sweep corpus damping odds r c todo).2
     <= c + Z.of_nat (length todo))%Z /\
  potential corpus damping odds (sweep corpus damping odds r c todo).1
  + quantum * (len todo
               - (inject_Z (sweep corpus damping odds r c todo).2 - inject_Z c))
  <= potential corpus damping odds r.
Proof.
  revert r c. induction todo as [|x todo IH]; intros r c Hsub.
  - simpl. split; [lia|]. unfold len. simpl.
    assert ((inject_Z 0 - (inject_Z c - inject_Z c)) == 0) as -> by ring.
    lra.
  - assert (x ∈ ks) as Hx by (apply Hsub; left).
    assert (forall p, p ∈ todo -> p ∈ ks) as Hsub'
        by (intros p Hp; apply Hsub; by right).
    pose proof (potential_step corpus damping odds Hnd Hd0 r x Hx) as Hstep.
    pose proof (Qabs_nonneg (residual corpus damping odds r x)) as Habs.
    pose proof quantum_pos as Hq.
    simpl sweep. rewrite len_cons.
    destruct (settled corpus damping odds r x) eqn:Hset.
    + destruct (IH (rewrite_page corpus damping odds r x) (c + 1)%Z Hsub')
        as [Hc Hpot].
      split; [simpl length; lia|].
      rewrite inject_Z_plus in Hpot. change (inject_Z 1) with 1 in Hpot.
      set (c' := inject_Z (sweep corpus damping odds
                             (rewrite_page corpus damping odds r x) (c + 1) todo).2)
        in *.
      set (P' := potential corpus damping odds
                   (sweep corpus damping odds
                      (rewrite_page corpus damping odds r x) (c + 1) todo).1) in *.
      assert ((len todo + 1 - (c' - inject_Z c)) == (len todo - (c' - (inject_Z c + 1)))) as -> by ring.
      assert (0 <= (1 - damping) * Qabs (residual corpus damping odds r x))
        by (apply Qmult_le_0_compat; lra).
      lra.
    + destruct (IH (rewrite_page corpus damping odds r x) c Hsub')
        as [Hc Hpot].
      split; [simpl length; lia|].
      apply settled_false in Hset.
      set (c' := inject_Z (sweep corpus damping odds
                             (rewrite_page corpus damping odds r x) c todo).2)
        in *.
      set (P' := potential corpus damping odds
                   (sweep corpus damping odds
                      (rewrite_page corpus damping odds r x) c todo).1) in *.
      assert ((quantum * (len todo + 1 - (c' - inject_Z c))) == (quantum * (len todo - (c' - inject_Z c)) + quantum)) as -> by ring.
      assert (quantum <= (1 - damping) * Qabs (residual corpus damping odds r x)).
      { unfold quantum. apply Qmult_le_l; [lra|done]. }
      lra.
Qed.

(** A pass either counts every page, or lowers the potential by a quantum. *)
Lemma pass_progress (r : page -> Q) :
  exists r' c,
    pass corpus damping odds (tabulate r ks) = Ok (tabulate r' ks, c) /\
    (c = N \/
     potential corpus damping odds r' + quantum <= potential corpus damping odds r).
Proof.
  exists (sweep corpus damping odds r 0 ks).1, (sweep corpus damping odds r 0 ks).2.
  split; [by apply pass_tabulate|].
  destruct (sweep_potential ks r 0) as [Hc Hpot]; [done|].
  destruct (decide ((sweep corpus damping odds r 0 ks).2 = N)) as [|Hne];
    [by left|right].
  assert (length ks = length corpus) as Hlen by (unfold ks, keys; by rewrite length_map).
  assert (inject_Z (sweep corpus damping odds r 0 ks).2 + 1 <= len ks) as Hgap.
  { unfold len. rewrite <- (inject_Z_plus _ 1), <- Zle_Qle. unfold N in Hne. lia. }
  pose proof quantum_pos as Hq.
  set (c' := inject_Z (sweep corpus damping odds r 0 ks).2) in *.
  set (P' := potential corpus damping odds (sweep corpus damping odds r 0 ks).1) in *.
  assert (quantum * 1 <= quantum * (len ks - (c' - inject_Z 0))).
  { apply Qmult_le_l; [done|]. change (inject_Z 0) with 0. lra. }
  lra.
Qed.

(** With a quantum of fuel for each quantum of potential, the loop ends. *)
Lemma iterate_loop_ends (fuel : nat) (r : page -> Q) :
  potential corpus damping odds r < quantum * inject_Z (Z.of_nat fuel) ->
  exists ranks, iterate_loop fuel corpus damping odds N (tabulate r ks) = Some (Ok ranks).
Proof.
  revert r. induction fuel as [|fuel IH]; intros r Hpot.
  - pose proof (potential_nonneg r). simpl in Hpot.
    assert (quantum * inject_Z 0 == 0) as E by (change (inject_Z 0) with 0; ring).
    rewrite E in Hpot.
    lra.
  - destruct (pass_progress r) as (r' & c & Hpass & Hcase).
    simpl. rewrite Hpass.
    destruct Hcase as [->|Hless].
    + rewrite Z.eqb_refl. by eexists.
    + destruct (Z.eqb c N); [by eexists|]. apply IH.
      rewrite inject_nat_S in Hpot.
      assert (quantum * (inject_Z (Z.of_nat fuel) + 1)
              == quantum * inject_Z (Z.of_nat fuel) + quantum) as E by ring.
      rewrite E in Hpot.
      lra.
Qed.
End Termination.

(** More fuel does not change what the loop returns. *)
Lemma iterate_loop_more_fuel fuel extra corpus damping odds N d res :
  iterate_loop fuel corpus damping odds N d = Some res ->
  iterate_loop (fuel + extra) corpus damping odds N d = Some res.
Proof.
  revert d. induction fuel as [|fuel IH]; intros d; simpl; [done|].
  destruct (pass corpus damping odds d) as [[d' c]|e]; [|done].
  destruct (Z.eqb c N); [done|]. apply IH.
Qed.


(** ** The order of the updates *)

Lemma incoming_ext corpus damping (r r' : page -> Q) pg :
  (forall q, r q = r' q) ->
  incoming corpus damping r pg = incoming corpus damping r' pg.
Proof.
  intros Hext. unfold incoming. generalize 0.
  induction corpus as [|lo corpus IH]; intros s; simpl; [done|].
  rewrite Hext. apply IH.
Qed.

Lemma new_rank_ext corpus damping odds (r r' : page -> Q) pg :
  (forall q, r q = r' q) ->
  new_rank corpus damping odds r pg = new_rank corpus damping odds r' pg.
Proof. intros Hext. unfold new_rank. f_equal. by apply incoming_ext. Qed.

Lemma settled_true corpus damping odds (r : page -> Q) x :
  settled corpus damping odds r x = true
  <-> Qabs (r x - new_rank corpus damping odds r x) < threshold.
Proof.
  unfold settled. destruct (Qlt_le_dec _ _) as [Hlt|Hle]; split; try done.
  intros Hlt. exfalso. by apply (Qlt_not_le _ _ Hlt).
Qed.

Section Sweep.
Variables (corpus : Corpus) (damping odds : Q).

(** A sweep leaves the pages it does not visit, gives the page at position
    [i] the rank computed from the new ranks of the pages before it and the
    old ranks of the others, and counts them all exactly when every one of
    them moved by less than the threshold. *)
Lemma sweep_spec (todo : list page) (r : page -> Q) (c : Z) :
  NoDup todo ->
  let r' := (sweep corpus damping odds r c todo).1 in
  let c' := (sweep corpus damping odds r c todo).2 in
  (forall q, q ∉ todo -> r' q = r q) /\
  (forall i p, todo !! i = Some p ->
     r' p = new_rank corpus damping odds
              (fun q => if decide (q ∈ take i todo) then r' q else r q) p) /\
  (c <= c' <= c + Z.of_nat (length todo))%Z /\
  (c' = (c + Z.of_nat (length todo))%Z
   <-> forall p, p ∈ todo -> Qabs (r p - r' p) < threshold).
Proof.
  revert r c. induction todo as [|x todo IH]; intros r c Hnd.
  - simpl. split; [done|]. split; [intros i p Hp; by rewrite lookup_nil in Hp|].
    split; [lia|]. split; [|intros _; lia].
    intros _ p Hp. by apply elem_of_nil in Hp.
  - apply NoDup_cons in Hnd as [Hx Hnd].
    set (r1 := rewrite_page corpus damping odds r x).
    set (c1 := (if settled corpus damping odds r x then c + 1 else c)%Z).
    specialize (IH r1 c1 Hnd). simpl in IH.
    destruct IH as (Hout & Hpos & Hc & Hall).
    change (sweep corpus damping odds r c (x :: todo))
      with (sweep corpus damping odds r1 c1 todo).
    set (r' := (sweep corpus damping odds r1 c1 todo).1) in *.
    set (c' := (sweep corpus damping odds r1 c1 todo).2) in *.
    assert (r1 x = new_rank corpus damping odds r x) as Hr1x
        by (unfold r1, rewrite_page; by rewrite decide_True).
    assert (forall q, q <> x -> r1 q = r q) as Hr1
        by (intros q Hq; unfold r1, rewrite_page; by rewrite decide_False).
    assert (r' x = new_rank corpus damping odds r x) as Hr'x
        by (by rewrite Hout).
    simpl. repeat split.
    + intros q Hq. apply not_elem_of_cons in Hq as [Hqx Hq].
      rewrite Hout by done. by apply Hr1.
    + intros [|i] p Hp; simpl in Hp.
      * injection Hp as <-. rewrite Hr'x. apply new_rank_ext. intros q.
        rewrite decide_False; [done|]. simpl. apply not_elem_of_nil.
      * rewrite (Hpos i p Hp). apply new_rank_ext. intros q. simpl.
        destruct (decide (q ∈ take i todo)) as [Hq|Hq].
        -- rewrite decide_True; [done|]. by right.
        -- destruct (decide (q = x)) as [->|Hne].
           ++ rewrite decide_True by left. by rewrite Hr1x, Hr'x.
           ++ rewrite decide_False; [by apply Hr1|].
              intros Hin. apply elem_of_cons in Hin as [?|?]; done.
    + unfold c1 in Hc. destruct (settled corpus damping odds r x); lia.
    + unfold c1 in Hc. destruct (settled corpus damping odds r x); lia.
    + intros Hcount p Hp. apply elem_of_cons in Hp as [->|Hp].
      * rewrite Hr'x. apply settled_true. unfold c1 in Hc.
        destruct (settled corpus damping odds r x); [done|lia].
      * assert (p <> x) as Hpx by (intros ->; done).
        rewrite <- (Hr1 p Hpx). apply Hall; [|done]. unfold c1 in *.
        destruct (settled corpus damping odds r x); lia.
    + intros Hclose.
      assert (settled corpus damping odds r x = true) as Hset.
      { apply settled_true. rewrite <- Hr'x. apply Hclose. left. }
      assert (c' = (c1 + Z.of_nat (length todo))%Z) as ->.
      { apply Hall. intros p Hp.
        assert (p <> x) as Hpx by (intros ->; done).
        rewrite (Hr1 p Hpx). apply Hclose. by right. }
      unfold c1. rewrite Hset. lia.
Qed.
End Sweep.

Lemma rank_of_tabulate (r : page -> Q) ks p : p ∈ ks -> rank_of (tabulate r ks) p = r p.
Proof. intros Hp. unfold rank_of. by rewrite dict_get_tabulate. Qed.

(** C3, as the code has it: a pass rewrites the ranks in place, in the order
    of the corpus: the page at position [i] gets the rank computed from the
    ranks already rewritten in this pass for the pages before it and from
    the previous ranks of the others.  The pass is run to its end before the
    loop decides, and it counts every page exactly when every new rank is
    within the threshold of the previous rank of its page. *)
Theorem pass_updates_in_place corpus d odds old :
  NoDup (keys corpus) -> keys old = keys corpus ->
  exists new count,
    pass corpus d odds old = Ok (new, count) /\
    keys new = keys corpus /\
    (forall i p, keys corpus !! i = Some p ->
       rank_of new p
       = new_rank corpus d odds
           (fun q => if decide (q ∈ take i (keys corpus))
                     then rank_of new q else rank_of old q) p) /\
    (count = Z.of_nat (length corpus)
     <-> forall p, p ∈ keys corpus -> Qabs (rank_of old p - rank_of new p) < threshold) /\
    (forall fuel,
       iterate_loop (S fuel) corpus d odds (Z.of_nat (length corpus)) old
       = if Z.eqb count (Z.of_nat (length corpus)) then Some (Ok new)
         else iterate_loop fuel corpus d odds (Z.of_nat (length corpus)) new).
Proof.
  intros Hnd Hkeys.
  assert (old = tabulate (rank_of old) (keys corpus)) as Hold.
  { rewrite <- Hkeys. apply (dict_is_tabulate old 0). by rewrite Hkeys. }
  pose proof (pass_tabulate corpus d odds Hnd (rank_of old)) as Hpass.
  rewrite <- Hold in Hpass.
  destruct (sweep_spec corpus d odds (keys corpus) (rank_of old) 0 Hnd)
    as (_ & Hpos & _ & Hall).
  set (r' := (sweep corpus d odds (rank_of old) 0 (keys corpus)).1) in *.
  set (c' := (sweep corpus d odds (rank_of old) 0 (keys corpus)).2) in *.
  assert (length (keys corpus) = length corpus) as Hlen
      by (unfold keys; by rewrite length_map).
  exists (tabulate r' (keys corpus)), c'.
  split; [done|]. split; [apply keys_tabulate|]. split; [|split].
  - intros i p Hp. assert (p ∈ keys corpus) as Hin by by eapply list_elem_of_lookup_2.
    rewrite rank_of_tabulate by done. rewrite (Hpos i p Hp).
    apply new_rank_ext. intros q.
    destruct (decide (q ∈ take i (keys corpus))) as [Hq|Hq]; [|done].
    rewrite rank_of_tabulate; [done|].
    apply list_elem_of_lookup in Hq as [j Hj]. apply lookup_take_Some in Hj as [Hj _].
    by eapply list_elem_of_lookup_2.
  - rewrite <- Hlen. rewrite Z.add_0_l in Hall. rewrite Hall.
    split; intros H p Hp.
    + rewrite rank_of_tabulate by done. by apply H.
    + specialize (H p Hp). by rewrite rank_of_tabulate in H.
  - intros fuel. simpl. by rewrite Hpass.
Qed.

Lemma pass_updates_in_place_witness :
  exists new count,
    pass triangle (85 # 100) (5 # 100) (tabulate (fun _ => 1 # 3) (keys triangle))
    = Ok (new, count) /\
    keys new = keys triangle /\
    (forall i p, keys triangle !! i = Some p ->
       rank_of new p
       = new_rank triangle (85 # 100) (5 # 100)
           (fun q => if decide (q ∈ take i (keys triangle))
                     then rank_of new q
                     else rank_of (tabulate (fun _ => 1 # 3) (keys triangle)) q) p) /\
    (count = Z.of_nat (length triangle)
     <-> forall p, p ∈ keys triangle ->
           Qabs (rank_of (tabulate (fun _ => 1 # 3) (keys triangle)) p - rank_of new p)
           < threshold) /\
    (forall fuel,
       iterate_loop (S fuel) triangle (85 # 100) (5 # 100) (Z.of_nat (length triangle))
         (tabulate (fun _ => 1 # 3) (keys triangle))
       = if Z.eqb count (Z.of_nat (length triangle)) then Some (Ok new)
         else iterate_loop fuel triangle (85 # 100) (5 # 100)
                (Z.of_nat (length triangle)) new).
Proof.
  apply (pass_updates_in_place triangle (85 # 100) (5 # 100)
           (tabulate (fun _ => 1 # 3) (keys triangle))).
  - apply (bool_decide_unpack _). vm_compute. exact I.
  - vm_compute. reflexivity.
Defined.

(** C3 fails as stated: on the three-page corpus, the first pass gives
    "3.html" a rank computed from the rank of "2.html" rewritten in the same
    pass, which is not the rank the synchronous step gives it. *)
Lemma pass_differs_from_jacobi :
  exists new count,
    pass triangle (85 # 100) (5 # 100) (tabulate (fun _ => 1 # 3) (keys triangle))
    = Ok (new, count) /\
    rank_of new "3.html" == 851 # 2400 /\
    rank_of (jacobi_step triangle (85 # 100) (5 # 100)
               (tabulate (fun _ => 1 # 3) (keys triangle))) "3.html" == 19 # 40 /\
    ~ rank_of new "3.html"
      == rank_of (jacobi_step triangle (85 # 100) (5 # 100)
                    (tabulate (fun _ => 1 # 3) (keys triangle))) "3.html".
Proof.
  eexists _, _. split; [vm_compute; reflexivity|].
  split; [vm_compute; reflexivity|]. split; [vm_compute; reflexivity|].
  vm_compute. discriminate.
Qed.



(** ** Dangling pages in the solver *)

#[local] Opaque Qabs Qplus Qminus Qmult Qdiv.

(** A pass over the single page: nothing links to it, so it is given [odds]. *)
Lemma pass_single_page d odds v :
  pass single_page d odds [("a.html"%string, v)]
  = Ok ([("a.html"%string, odds + 0)],
        if Qlt_le_dec (Qabs (v - (odds + 0))) threshold then 1%Z else 0%Z).
Proof.
  unfold pass, update_page, summation_of. simpl.
  rewrite decide_False by apply not_elem_of_empty. simpl.
  by destruct (Qlt_le_dec _ _).
Qed.

(** C1 fails on the code: in a pass over the corpus whose first page has no
    link, the rank [r1] of that page reaches no page: "2.html" is given
    (1 - d)/N and "1.html" is given (1 - d)/N plus what "2.html" hands it. *)
Theorem dangling_rank_is_dropped d r1 r2 :
  exists new count,
    pass with_dangling d ((1 - d) / len with_dangling)
      [("1.html"%string, r1); ("2.html"%string, r2)] = Ok (new, count) /\
    rank_of new "2.html" == (1 - d) / 2 /\
    rank_of new "1.html" == (1 - d) / 2 + d * r2.
Proof.
  change [("1.html"%string, r1); ("2.html"%string, r2)]
    with (tabulate (fun q => if decide (q = "1.html"%string) then r1 else r2)
            (keys with_dangling)).
  rewrite pass_tabulate by (apply (bool_decide_unpack _); vm_compute; exact I).
  eexists _, _. split; [reflexivity|].
  rewrite !rank_of_tabulate by (apply (bool_decide_unpack _); vm_compute; exact I).
  unfold with_dangling at 2 4. simpl. unfold rewrite_page, new_rank, incoming. simpl.
  change (len with_dangling) with 2.
  change (len [("1.html"%string, ∅); ("2.html"%string, {["1.html"%string]})]) with 2.
  change (set_len {["1.html"%string]}) with 1.
  repeat case_decide; try (exfalso; set_solver); split; by field.
Qed.

#[local] Transparent Qabs Qplus Qminus Qmult Qdiv.

(** C2 fails on the code: with a page without links the ranks returned sum
    to 171/800, further from one than the tolerance. *)
Theorem iterate_pagerank_loses_rank :
  exists ranks,
    iterate_pagerank 3 with_dangling (85 # 100) = Some (Ok ranks) /\
    total ranks == 171 # 800 /\
    ~ Qabs (total ranks - 1) <= (1 # 1000) * len with_dangling.
Proof.
  eexists. split; [vm_compute; reflexivity|].
  split; [vm_compute; reflexivity|]. vm_compute. intros H. by apply H.
Qed.

(** C4 fails on the code: on the single page without links the sampling
    estimator returns the rank 1, and the iterative solver the rank 1 - d. *)
Theorem single_page_ranks d n g fuel :
  0 < d -> d < 1 -> (1 <= n)%Z -> uniform01 g -> (2 <= fuel)%nat ->
  (exists v, sample_pagerank single_page d n g = Ok [("a.html"%string, v)] /\ v == 1) /\
  (exists w, iterate_pagerank fuel single_page d = Some (Ok [("a.html"%string, w)]) /\
             w == 1 - d /\ ~ w == 1).
Proof.
  intros Hd0 Hd1 Hn Hg Hfuel. split.
  - destruct (sample_pagerank_counts single_page d n g)
      as (first & visited & f & _ & _ & Hlen & Hall & Hrun & Hf);
      [apply (bool_decide_unpack _); vm_compute; exact I|done|done|done|].
    exists (f "a.html"%string). split; [exact Hrun|]. rewrite Hf.
    pose proof (visits_total (keys single_page) visited) as Htot.
    simpl in Htot. rewrite <- (len_walk visited n Hn Hlen).
    rewrite Qplus_0_r in Htot. rewrite Htot; [|apply NoDup_singleton|done].
    field. unfold len. rewrite Hlen.
    assert (0 < inject_Z (Z.of_nat (Z.to_nat n))); [|lra].
    change 0 with (inject_Z 0). rewrite <- Zlt_Qlt. lia.
  - destruct fuel as [|[|fuel]]; [lia|lia|].
    exists ((1 - d) / inject_Z 1 + 0). split.
    + unfold iterate_pagerank. simpl length.
      rewrite !div_Ok by done. simpl fill.
      unfold iterate_loop. rewrite pass_single_page.
      destruct (Qlt_le_dec _ _); [done|]. simpl Z.eqb. cbv iota.
      rewrite pass_single_page.
      destruct (Qlt_le_dec _ _) as [|Hle]; [done|].
      exfalso. revert Hle. apply Qlt_not_le.
      assert ((1 - d) / inject_Z 1 + 0 - ((1 - d) / inject_Z 1 + 0) == 0) as ->
          by ring.
      reflexivity.
    + split; [field|]. intros E.
      assert ((1 - d) / inject_Z 1 + 0 == 1 - d) as E' by field. lra.
Qed.

Lemma single_page_ranks_witness :
  (exists v, sample_pagerank single_page (85 # 100) 3 lcg
             = Ok [("a.html"%string, v)] /\ v == 1) /\
  (exists w, iterate_pagerank 2 single_page (85 # 100)
             = Some (Ok [("a.html"%string, w)]) /\
             w == 1 - (85 # 100) /\ ~ w == 1).
Proof.
  apply (single_page_ranks (85 # 100) 3 lcg 2).
  - reflexivity.
  - reflexivity.
  - lia.
  - apply lcg_uniform.
  - lia.
Defined.

(** * Further properties *)

(** ** [crawl] *)

Lemma keys_dict_set_in {V : Type} (d : list (page * V)) k v :
  k ∈ keys d -> keys (dict_set d k v) = keys d.
Proof.
  induction d as [|[k' v'] d IH]; simpl; intros Hk; [by apply elem_of_nil in Hk|].
  destruct (decide (k' = k)) as [->|Hne]; [done|]. simpl. f_equal.
  apply IH. apply elem_of_cons in Hk as [?|?]; [congruence|done].
Qed.

Lemma keys_dict_set {V : Type} (d : list (page * V)) k v :
  keys (dict_set d k v) = if decide (k ∈ keys d) then keys d else keys d ++ [k].
Proof.
  destruct (decide (k ∈ keys d)) as [Hk|Hk]; [by apply keys_dict_set_in|].
  rewrite dict_set_miss by done. unfold keys. by rewrite map_app.
Qed.

Lemma NoDup_dict_set {V : Type} (d : list (page * V)) k v :
  NoDup (keys d) -> NoDup (keys (dict_set d k v)).
Proof.
  intros Hnd. rewrite keys_dict_set. destruct (decide (k ∈ keys d)); [done|].
  apply NoDup_app. split; [done|]. split; [|apply NoDup_singleton].
  intros x Hx Hx'. apply list_elem_of_singleton in Hx'. by subst.
Qed.

Lemma Forall_dict_set {V : Type} (P : page * V -> Prop) (d : list (page * V)) k v :
  Forall P d -> P (k, v) -> Forall P (dict_set d k v).
Proof.
  intros Hd Hkv. induction d as [|[k' v'] d IH]; simpl; [by constructor|].
  apply Forall_cons in Hd as [Hhd Htl].
  destruct (decide (k' = k)); constructor; auto.
Qed.

Lemma dict_get_dict_set {V : Type} (d : list (page * V)) k v q :
  dict_get (dict_set d k v) q = if decide (k = q) then Ok v else dict_get d q.
Proof.
  induction d as [|[k' v'] d IH]; simpl.
  - destruct (decide (k = q)); done.
  - destruct (decide (k' = k)) as [->|Hne]; simpl.
    + destruct (decide (k = q)); done.
    + destruct (decide (k' = q)) as [->|Hne'].
      * by rewrite decide_False by done.
      * apply IH.
Qed.

Section CrawlFacts.
Variable findall : string -> list string.

(** The first loop keeps the keys distinct and never records a page as a
    link of itself. *)
Lemma extract_links_invariant (directory : list (string * string)) :
  NoDup (keys (extract_links findall directory)) /\
  Forall (fun po => po.1 ∉ po.2) (extract_links findall directory).
Proof.
  unfold extract_links.
  assert (forall (acc : Corpus),
            NoDup (keys acc) /\ Forall (fun po => po.1 ∉ po.2) acc ->
            let res := foldl (fun pages entry =>
                        let '(filename, contents) := entry in
                        if negb (endswith filename ".html") then pages
                        else dict_set pages filename
                               (list_to_set (findall contents) ∖ {[filename]}))
                        acc directory in
            NoDup (keys res) /\ Forall (fun po => po.1 ∉ po.2) res) as Hgen.
  { induction directory as [|[filename contents] directory IH]; intros acc Hacc;
      [done|].
    simpl. apply IH. destruct (endswith filename ".html"); simpl; [|done].
    destruct Hacc as [Hnd Hself]. split; [by apply NoDup_dict_set|].
    apply Forall_dict_set; [done|]. simpl.
    intros [_ Hk]%elem_of_difference. apply Hk. by apply elem_of_singleton. }
  apply Hgen. split; [apply NoDup_nil_2|constructor].
Qed.

(** The first loop on files with distinct names: one page per HTML file, in
    the order of the directory. *)
Lemma extract_links_distinct (directory : list (string * string)) :
  NoDup (map fst directory) ->
  extract_links findall directory
  = map (fun entry => (entry.1, list_to_set (findall entry.2) ∖ {[entry.1]}))
        (filter (fun entry => endswith entry.1 ".html" = true) directory).
Proof.
  unfold extract_links. intros Hnd.
  assert (forall (acc : Corpus),
            (forall k, k ∈ map fst directory -> k ∉ keys acc) ->
            foldl (fun pages entry =>
                     let '(filename, contents) := entry in
                     if negb (endswith filename ".html") then pages
                     else dict_set pages filename
                            (list_to_set (findall contents) ∖ {[filename]}))
                  acc directory
            = acc ++ map (fun entry =>
                            (entry.1, list_to_set (findall entry.2) ∖ {[entry.1]}))
                         (filter (fun entry => endswith entry.1 ".html" = true)
                                 directory)) as Hgen.
  { induction directory as [|[filename contents] directory IH]; intros acc Hacc.
    - simpl. by rewrite app_nil_r.
    - simpl in Hnd. apply NoDup_cons in Hnd as [Hfresh Hnd]. simpl.
      rewrite filter_cons. simpl.
      destruct (decide (endswith filename ".html" = true)) as [E|E].
      + rewrite E. simpl.
        rewrite dict_set_miss by (apply Hacc; left). rewrite IH; [|done|].
        * by rewrite <- app_assoc.
        * intros k Hk. unfold keys. rewrite map_app. simpl.
          rewrite elem_of_app, list_elem_of_singleton.
          intros [Hk'| ->]; [|done]. apply (Hacc k); [by right|done].
      + apply not_true_is_false in E. rewrite E. simpl. apply IH; [done|].
        intros k Hk. apply Hacc. by right. }
  rewrite Hgen; [done|]. intros k _. apply not_elem_of_nil.
Qed.

(** The second loop, started after the pages of [done] were filtered. *)
Lemma keep_known_loop (f : page -> gset page) (ks done todo : list page) :
  NoDup ks -> NoDup (done ++ todo) -> (forall q, q ∈ todo -> q ∈ ks) ->
  for_each (fun pages filename =>
              out ← dict_get pages filename;
              Ok (dict_set pages filename
                    (filter (fun link => link ∈ keys pages) out)))
           (tabulate (fun q => if decide (q ∈ done)
                               then filter (fun link => link ∈ ks) (f q) else f q) ks)
           todo
  = Ok (tabulate (fun q => if decide (q ∈ done ++ todo)
                           then filter (fun link => link ∈ ks) (f q) else f q) ks).
Proof.
  intros Hks. revert done. induction todo as [|x todo IH]; intros done Hnd Hin.
  - simpl. by rewrite app_nil_r.
  - rewrite for_each_cons. assert (x ∈ ks) as Hx by (apply Hin; left).
    assert (x ∉ done) as Hxd.
    { apply NoDup_app in Hnd as (_ & Hd & _). intros H. apply (Hd x H). left. }
    rewrite dict_get_tabulate by done. rewrite decide_False by done.
    rewrite bind_Ok, keys_tabulate. rewrite dict_set_tabulate by done.
    rewrite (tabulate_ext _ (fun q => if decide (q ∈ done ++ [x])
                                      then filter (fun link => link ∈ ks) (f q)
                                      else f q)).
    + rewrite bind_Ok, IH.
      * by rewrite <- app_assoc.
      * by rewrite <- app_assoc.
      * intros q Hq. apply Hin. by right.
    + intros q _. destruct (decide (q = x)) as [->|Hne].
      * rewrite decide_True; [done|]. apply elem_of_app. right. left.
      * destruct (decide (q ∈ done)) as [Hq|Hq].
        -- rewrite decide_True; [done|]. apply elem_of_app. by left.
        -- rewrite decide_False; [done|]. rewrite elem_of_app, list_elem_of_singleton.
           tauto.
Qed.

Lemma tabulate_items {V W : Type} (d : list (page * V)) (dflt : V) (h : V -> W) :
  NoDup (keys d) ->
  tabulate (fun q => h (match dict_get d q with Ok v => v | Raise _ => dflt end))
           (keys d)
  = map (fun po => (po.1, h po.2)) d.
Proof.
  induction d as [|[k v] d IH]; simpl; intros Hnd; [done|].
  apply NoDup_cons in Hnd as [Hk Hnd].
  rewrite decide_True by done. f_equal.
  rewrite <- IH by done. apply tabulate_ext. intros q Hq.
  destruct (decide (k = q)) as [->|]; [done|done].
Qed.

(** The second loop filters every link set and changes nothing else. *)
Lemma keep_known_links_Ok (pages : Corpus) :
  NoDup (keys pages) ->
  keep_known_links pages
  = Ok (map (fun po => (po.1, filter (fun link => link ∈ keys pages) po.2)) pages).
Proof.
  intros Hnd. unfold keep_known_links.
  rewrite (dict_is_tabulate pages ∅ Hnd) at 1.
  set (f := fun k => match dict_get pages k with Ok v => v | Raise _ => ∅ end).
  rewrite (tabulate_ext f (fun q => if decide (q ∈ @nil page)
                                    then filter (fun link => link ∈ keys pages) (f q)
                                    else f q)).
  2:{ intros q _. rewrite decide_False; [done|]. apply not_elem_of_nil. }
  rewrite keep_known_loop by done. f_equal. rewrite app_nil_l.
  rewrite <- (tabulate_items pages ∅
                (fun out : gset page => filter (fun link => link ∈ keys pages) out))
    by done.
  apply tabulate_ext. intros q Hq. by rewrite decide_True.
Qed.

(** What [crawl] returns. *)
Lemma crawl_Ok (directory : list (string * string)) :
  crawl findall directory
  = Ok (map (fun po => (po.1, filter (fun link =>
                                        link ∈ keys (extract_links findall directory))
                                     po.2))
            (extract_links findall directory)).
Proof.
  unfold crawl. apply keep_known_links_Ok. apply extract_links_invariant.
Qed.

Lemma keys_map_values {V W : Type} (h : page * V -> W) (d : list (page * V)) :
  keys (map (fun po => (po.1, h po)) d) = keys d.
Proof. unfold keys. rewrite map_map. by apply map_ext. Qed.

(** The corpus [crawl] returns has the invariants of the data model. *)
Lemma crawl_well_formed (directory : list (string * string)) :
  exists corpus,
    crawl findall directory = Ok corpus /\
    keys corpus = keys (extract_links findall directory) /\
    well_formed corpus /\ Forall (fun po => po.1 ∉ po.2) corpus.
Proof.
  destruct (extract_links_invariant directory) as [Hnd Hself].
  eexists. split; [apply crawl_Ok|]. split; [apply keys_map_values|].
  split; [split|].
  - by rewrite keys_map_values.
  - rewrite keys_map_values. apply Forall_forall. intros po Hpo.
    apply list_elem_of_fmap in Hpo as (po' & -> & Hpo'). simpl.
    intros link Hlink. apply elem_of_filter in Hlink as [Hlink _].
    by apply elem_of_list_to_set.
  - apply Forall_forall. intros po Hpo.
    apply list_elem_of_fmap in Hpo as (po' & -> & Hpo'). simpl.
    rewrite Forall_forall in Hself. specialize (Hself po' Hpo').
    intros Hin. apply elem_of_filter in Hin as [_ Hin]. done.
Qed.
End CrawlFacts.

Lemma extract_links_keys findall (directory : list (string * string)) (k : page) :
  k ∈ keys (extract_links findall directory)
  <-> k ∈ map fst (filter (fun entry => endswith entry.1 ".html" = true) directory).
Proof.
  unfold extract_links.
  assert (forall (acc : Corpus),
            k ∈ keys (foldl (fun pages entry =>
                     let '(filename, contents) := entry in
                     if negb (endswith filename ".html") then pages
                     else dict_set pages filename
                            (list_to_set (findall contents) ∖ {[filename]}))
                  acc directory)
            <-> k ∈ keys acc
                \/ k ∈ map fst (filter (fun entry => endswith entry.1 ".html" = true)
                                  directory)) as Hgen.
  { induction directory as [|[filename contents] directory IH]; intros acc.
    - simpl. rewrite elem_of_nil. tauto.
    - simpl. rewrite IH, filter_cons. simpl.
      destruct (decide (endswith filename ".html" = true)) as [E|E].
      + rewrite E. simpl. rewrite keys_dict_set, elem_of_cons.
        case_decide as Hin.
        * split; [tauto|]. intros [?|[->|?]]; tauto.
        * rewrite elem_of_app, list_elem_of_singleton. tauto.
      + apply not_true_is_false in E. rewrite E. simpl. tauto. }
  rewrite Hgen. unfold keys at 1. simpl. rewrite elem_of_nil. tauto.
Qed.

(** *** The file system *)

Section CrawlFilesFacts.
Variables (findall : string -> list string) (fs : FileSystem).

(** The first loop, when it raises nothing, is the first loop on the files
    as read. *)
Lemma read_loop_inv (names : list string) (acc pages : Corpus) :
  for_each (fun pages filename =>
              if negb (endswith filename ".html") then Ok pages
              else
                contents ← read fs filename;
                Ok (dict_set pages filename
                      (list_to_set (findall contents) ∖ {[filename]})))
           acc names = Ok pages ->
  pages = foldl (fun pages entry =>
                   let '(filename, contents) := entry in
                   if negb (endswith filename ".html") then pages
                   else dict_set pages filename
                          (list_to_set (findall contents) ∖ {[filename]}))
                acc (map (fun name => (name, contents_of fs name)) names).
Proof.
  revert acc. induction names as [|name names IH]; intros acc; [by intros [= <-]|].
  rewrite for_each_cons. simpl. unfold contents_of at 1.
  destruct (endswith name ".html"); simpl; [|by apply IH].
  destruct (read fs name) as [contents|e]; [|done]. by apply IH.
Qed.

(** What the first loop raises is what the reading of a page raised. *)
Lemma read_loop_Raise (names : list string) (acc : Corpus) e :
  for_each (fun pages filename =>
              if negb (endswith filename ".html") then Ok pages
              else
                contents ← read fs filename;
                Ok (dict_set pages filename
                      (list_to_set (findall contents) ∖ {[filename]})))
           acc names = Raise e ->
  exists name,
    name ∈ names /\ endswith name ".html" = true /\ read fs name = Raise e.
Proof.
  revert acc. induction names as [|name names IH]; intros acc; [done|].
  rewrite for_each_cons.
  destruct (endswith name ".html") eqn:Hhtml; simpl.
  - destruct (read fs name) as [contents|e'] eqn:Hread; simpl.
    + intros H. destruct (IH _ H) as (name' & Hin & Hh & Hr).
      exists name'. split; [by right|done].
    + intros [= ->]. exists name. split; [left|done].
  - intros H. destruct (IH _ H) as (name' & Hin & Hh & Hr).
    exists name'. split; [by right|done].
Qed.

(** [crawl_files], when it raises nothing, is [crawl] on the files as read. *)
Lemma crawl_files_inv corpus :
  crawl_files findall fs = Ok corpus ->
  exists names,
    listdir fs = Ok names /\
    crawl findall (map (fun name => (name, contents_of fs name)) names) = Ok corpus.
Proof.
  unfold crawl_files, read_links. destruct (listdir fs) as [names|e]; [|done].
  rewrite bind_Ok.
  destruct (for_each _ [] names) as [pages|e] eqn:Hloop; [|done].
  rewrite bind_Ok. intros Hkeep. exists names. split; [done|].
  apply read_loop_inv in Hloop. unfold crawl, extract_links. by rewrite <- Hloop.
Qed.

Lemma crawl_files_Raise e :
  crawl_files findall fs = Raise e ->
  listdir fs = Raise e \/
  exists names name,
    listdir fs = Ok names /\ name ∈ names /\ endswith name ".html" = true /\
    read fs name = Raise e.
Proof.
  unfold crawl_files, read_links. destruct (listdir fs) as [names|e'];
    [|intros [= ->]; by left].
  rewrite bind_Ok.
  destruct (for_each _ [] names) as [pages|e'] eqn:Hloop.
  - rewrite bind_Ok. intros Hkeep. exfalso.
    apply read_loop_inv in Hloop. subst pages.
    pose proof (crawl_Ok findall (map (fun name => (name, contents_of fs name)) names))
      as Hok.
    unfold crawl, extract_links in Hok. by rewrite Hok in Hkeep.
  - intros [= ->]. right. apply read_loop_Raise in Hloop as (name & ? & ? & ?).
    by exists names, name.
Qed.

(** When the directory can be listed and its pages read, [crawl_files]
    returns a corpus with the invariants of the data model. *)
Lemma crawl_files_Ok names :
  listdir fs = Ok names ->
  (forall name, name ∈ names -> endswith name ".html" = true ->
                exists contents, read fs name = Ok contents) ->
  exists corpus,
    crawl_files findall fs = Ok corpus /\
    (forall k, k ∈ keys corpus <-> k ∈ names /\ endswith k ".html" = true) /\
    well_formed corpus /\ Forall (fun po => po.1 ∉ po.2) corpus.
Proof.
  intros Hlist Hread.
  destruct (crawl_files findall fs) as [corpus|e] eqn:Hrun.
  - exists corpus. split; [done|].
    destruct (crawl_files_inv corpus Hrun) as (names' & Hlist' & Hcrawl).
    rewrite Hlist in Hlist'. injection Hlist' as <-.
    destruct (crawl_well_formed findall
                (map (fun name => (name, contents_of fs name)) names))
      as (corpus' & Hcrawl' & Hkeys & Hwf & Hself).
    rewrite Hcrawl in Hcrawl'. injection Hcrawl' as <-.
    split; [|done]. intros k. rewrite Hkeys, extract_links_keys.
    rewrite list_elem_of_fmap. split.
    + intros ([name c] & -> & Hin). apply list_elem_of_filter in Hin as [Hh Hin].
      apply list_elem_of_fmap in Hin as (name' & [= -> ->] & Hin). done.
    + intros [Hin Hh]. exists (k, contents_of fs k). split; [done|].
      apply list_elem_of_filter. split; [done|].
      apply list_elem_of_fmap. by exists k.
  - exfalso. destruct (crawl_files_Raise e Hrun) as [Hl|(names' & name & Hl & Hin & Hh & Hr)].
    + by rewrite Hlist in Hl.
    + rewrite Hlist in Hl. injection Hl as <-.
      destruct (Hread name Hin Hh) as [c Hc]. by rewrite Hc in Hr.
Qed.
End CrawlFilesFacts.

(** X1: [crawl] raises only what the listing of the directory or the
    reading of one of its ".html" files raises; when the directory can be
    listed and those files read it returns a corpus; and a corpus it returns
    has distinct pages, every link of which is a page of the corpus, and no
    page of which links to itself. *)
Theorem crawl_returns_corpus findall (fs : FileSystem) :
  (forall corpus, crawl_files findall fs = Ok corpus ->
     well_formed corpus /\ Forall (fun po => po.1 ∉ po.2) corpus) /\
  (forall e, crawl_files findall fs = Raise e ->
     listdir fs = Raise e \/
     exists names name,
       listdir fs = Ok names /\ name ∈ names /\ endswith name ".html" = true /\
       read fs name = Raise e) /\
  (forall names, listdir fs = Ok names ->
     (forall name, name ∈ names -> endswith name ".html" = true ->
                   exists contents, read fs name = Ok contents) ->
     exists corpus, crawl_files findall fs = Ok corpus).
Proof.
  split; [|split].
  - intros corpus Hrun.
    destruct (crawl_files_inv findall fs corpus Hrun) as (names & _ & Hcrawl).
    destruct (crawl_well_formed findall
                (map (fun name => (name, contents_of fs name)) names))
      as (corpus' & Hcrawl' & _ & Hwf & Hself).
    rewrite Hcrawl in Hcrawl'. by injection Hcrawl' as <-.
  - apply crawl_files_Raise.
  - intros names Hlist Hread.
    destruct (crawl_files_Ok findall fs names Hlist Hread) as (corpus & Hrun & _).
    by exists corpus.
Qed.

(** X2: on a directory of files with distinct names, the pages [crawl]
    returns are the files whose name ends in ".html", in the order of the
    directory, and a page links to exactly the matches in its file that are
    other pages of the corpus. *)
Theorem crawl_pages_and_links findall (directory : list (string * string)) :
  NoDup (map fst directory) ->
  exists corpus,
    crawl findall directory = Ok corpus /\
    keys corpus
    = map fst (filter (fun entry => endswith entry.1 ".html" = true) directory) /\
    forall filename contents,
      (filename, contents) ∈ directory -> endswith filename ".html" = true ->
      exists out,
        dict_get corpus filename = Ok out /\
        forall link, link ∈ out
                     <-> link ∈ findall contents /\ link <> filename
                         /\ link ∈ keys corpus.
Proof.
  intros Hnd.
  destruct (crawl_well_formed findall directory) as (corpus & Hrun & Hkeys & Hwf & _).
  exists corpus. split; [done|]. split.
  { rewrite Hkeys, extract_links_distinct by done. unfold keys.
    rewrite map_map. by apply map_ext. }
  intros filename contents Hin Hhtml.
  exists (filter (fun link => link ∈ keys (extract_links findall directory))
            (list_to_set (findall contents) ∖ {[filename]})).
  split.
  - apply dict_get_item; [apply Hwf|].
    rewrite crawl_Ok in Hrun. injection Hrun as <-.
    apply list_elem_of_fmap.
    exists (filename, list_to_set (findall contents) ∖ {[filename]}).
    split; [done|]. rewrite extract_links_distinct by done.
    apply list_elem_of_fmap. exists (filename, contents). split; [done|].
    apply list_elem_of_filter. by split.
  - intros link. rewrite elem_of_filter, elem_of_difference, elem_of_list_to_set,
      elem_of_singleton, Hkeys. tauto.
Qed.

Lemma crawl_pages_and_links_witness :
  exists corpus,
    crawl site_links site = Ok corpus /\
    keys corpus
    = map fst (filter (fun entry => endswith entry.1 ".html" = true) site) /\
    forall filename contents,
      (filename, contents) ∈ site -> endswith filename ".html" = true ->
      exists out,
        dict_get corpus filename = Ok out /\
        forall link, link ∈ out
                     <-> link ∈ site_links contents /\ link <> filename
                         /\ link ∈ keys corpus.
Proof.
  apply (crawl_pages_and_links site_links site).
  apply (bool_decide_unpack _). vm_compute. exact I.
Defined.

(** ** [transition_model]: the errors *)

Lemma add_prob_unknown_link (p : Q) (ks todo : list page) (d0 : Ranks) :
  keys d0 = ks -> (exists q, q ∈ todo /\ q ∉ ks) ->
  for_each (fun d page_link =>
              v ← dict_get d page_link; Ok (dict_set d page_link (v + p)))
           d0 todo
  = Raise KeyError.
Proof.
  revert d0. induction todo as [|x todo IH]; intros d0 Hkeys (q & Hq & Hbad).
  - by apply elem_of_nil in Hq.
  - rewrite for_each_cons. destruct (decide (x ∈ ks)) as [Hx|Hx].
    + destruct (dict_get_key d0 x) as [v Hv]; [by rewrite Hkeys|].
      rewrite Hv, bind_Ok, bind_Ok. apply IH.
      * rewrite keys_dict_set_in; [done|]. by rewrite Hkeys.
      * exists q. split; [|done].
        apply elem_of_cons in Hq as [->|Hq]; [done|done].
    + rewrite dict_get_miss; [done|]. by rewrite Hkeys.
Qed.

(** X3: [transition_model] raises [KeyError] for a page that is not a key of
    the corpus. *)
Theorem transition_model_unknown_page corpus pg d :
  pg ∉ keys corpus -> transition_model corpus pg d = Raise KeyError.
Proof.
  intros Hpg. unfold transition_model. by rewrite dict_get_miss.
Qed.

Lemma transition_model_unknown_page_witness :
  transition_model triangle "9.html" (85 # 100) = Raise KeyError.
Proof.
  apply (transition_model_unknown_page triangle "9.html" (85 # 100)).
  apply (bool_decide_unpack _). vm_compute. exact I.
Defined.

(** A link that is no page of the corpus makes the second loop of
    [transition_model] raise. *)
Lemma transition_model_unknown_link_raise corpus pg d out :
  NoDup (keys corpus) -> dict_get corpus pg = Ok out ->
  (exists q, q ∈ out /\ q ∉ keys corpus) ->
  transition_model corpus pg d = Raise KeyError.
Proof.
  intros Hnd Hget (q & Hq & Hbad). unfold transition_model. rewrite Hget, bind_Ok.
  assert (size out <> 0%nat) as Hsz.
  { intros Hz. apply size_empty_inv in Hz. apply leibniz_equiv in Hz.
    subst out. by apply not_elem_of_empty in Hq. }
  assert (negb (size out =? 0)%nat = true) as -> by (by destruct (size out)).
  rewrite (div_Ok d (set_len out)) by by apply set_len_nonzero.
  rewrite (div_Ok (1 - d) (len corpus)) by by eapply len_corpus_nonzero.
  rewrite !bind_Ok. apply (add_prob_unknown_link _ (keys corpus)).
  - rewrite fill_tabulate by done. apply keys_tabulate.
  - exists q. split; [by apply elem_of_elements|done].
Qed.

(** X4: [transition_model] does not check the links: for a page of the
    corpus it raises [KeyError] exactly when one of the links of the page is
    no page of the corpus, whatever the damping factor. *)
Theorem transition_model_unknown_link corpus pg d out :
  NoDup (keys corpus) -> dict_get corpus pg = Ok out ->
  (transition_model corpus pg d = Raise KeyError
   <-> exists q, q ∈ out /\ q ∉ keys corpus).
Proof.
  intros Hnd Hget. split; [|by apply transition_model_unknown_link_raise].
  intros Hraise.
  destruct (decide (Forall (fun q => q ∈ keys corpus) (elements out))) as [Hall|Hex].
  - exfalso. rewrite Forall_forall in Hall.
    assert (forall q, q ∈ out -> q ∈ keys corpus) as Hsub
        by (intros q Hq; apply Hall; by apply elem_of_elements).
    destruct (decide (size out = 0%nat)) as [Hsz|Hsz].
    + by rewrite (transition_model_dangling corpus pg d out) in Hraise.
    + by rewrite (transition_model_linked corpus pg d out) in Hraise.
  - apply not_Forall_Exists in Hex; [|apply _].
    apply Exists_exists in Hex as (q & Hq & Hbad).
    exists q. split; [by apply elem_of_elements|done].
Qed.

Lemma transition_model_unknown_link_witness :
  transition_model broken_link "1.html" (85 # 100) = Raise KeyError
  <-> exists q, q ∈ ({["9.html"%string]} : gset page) /\ q ∉ keys broken_link.
Proof.
  apply (transition_model_unknown_link broken_link "1.html" (85 # 100)
           {["9.html"%string]}).
  - apply (bool_decide_unpack _). vm_compute. exact I.
  - vm_compute. reflexivity.
Defined.

(** ** [sample_pagerank]: edge cases and the random source *)

(** X5: with a negative sample count, on a non-empty corpus, [sample_pagerank]
    raises nothing and returns the mapping that gives every page the rank
    zero. *)
Theorem sample_pagerank_negative corpus d n g :
  NoDup (keys corpus) -> corpus <> [] -> (n < 0)%Z -> uniform01 g ->
  exists ranks,
    sample_pagerank corpus d n g = Ok ranks /\ keys ranks = keys corpus /\
    (forall p, p ∈ keys corpus -> rank_of ranks p == 0) /\ total ranks == 0.
Proof.
  intros Hnd Hne Hn Hg.
  destruct (choice_in (keys corpus) g) as (first & Hch & Hfirst);
    [by destruct corpus|done|].
  exists (tabulate (fun _ => 0 / inject_Z n) (keys corpus)).
  assert (0 / inject_Z n == 0) as Hzero by (unfold Qdiv; ring).
  split; [|split; [|split]].
  - unfold sample_pagerank. rewrite Hch. simpl.
    rewrite fill_tabulate by done.
    replace (Z.to_nat n) with 0%nat by lia. simpl.
    apply normalise_tabulate; [done|lia].
  - apply keys_tabulate.
  - intros p Hp. by rewrite rank_of_tabulate.
  - unfold total. rewrite values_tabulate, Qsum_const, Hzero. ring.
Qed.

Lemma sample_pagerank_negative_witness :
  exists ranks,
    sample_pagerank triangle (85 # 100) (-5) lcg = Ok ranks /\
    keys ranks = keys triangle /\
    (forall p, p ∈ keys triangle -> rank_of ranks p == 0) /\ total ranks == 0.
Proof.
  apply (sample_pagerank_negative triangle (85 # 100) (-5) lcg).
  - apply (bool_decide_unpack _). vm_compute. exact I.
  - discriminate.
  - lia.
  - apply lcg_uniform.
Defined.

(** X6: the errors of [sample_pagerank]: on the empty corpus it is
    [IndexError], whatever the sample count; on a non-empty corpus with the
    sample count zero it is [ZeroDivisionError]. *)
Theorem sample_pagerank_errors corpus d n g :
  corpus <> [] -> uniform01 g ->
  sample_pagerank [] d n g = Raise IndexError /\
  sample_pagerank corpus d 0 g = Raise ZeroDivisionError.
Proof.
  intros Hne Hg. split; [done|].
  destruct (choice_in (keys corpus) g) as (first & Hch & Hfirst);
    [by destruct corpus|done|].
  unfold sample_pagerank. rewrite Hch. simpl.
  destruct corpus as [|[k out] corpus]; [done|].
  change (keys ((k, out) :: corpus)) with (k :: keys corpus).
  destruct (fill_head k (keys corpus) 0) as (v & rest & ->).
  unfold normalise. simpl. by rewrite decide_True.
Qed.

Lemma sample_pagerank_errors_witness :
  sample_pagerank [] (85 # 100) 7 lcg = Raise IndexError /\
  sample_pagerank triangle (85 # 100) 0 lcg = Raise ZeroDivisionError.
Proof.
  apply (sample_pagerank_errors triangle (85 # 100) 7 lcg).
  - discriminate.
  - apply lcg_uniform.
Defined.

(** A weighted draw looks at the head of the generator only. *)
Lemma choices_head {A : Type} (population : list A) (weights : list Q)
    (g g' : RandomState) :
  g 0%nat = g' 0%nat ->
  choices population weights g'
  = match choices population weights g with
    | Ok (x, _) => Ok (x, fun i => g' (S i))
    | Raise e => Raise e
    end.
Proof.
  intros H0. unfold choices, random. rewrite <- H0.
  destruct (negb _); [done|]. destruct (last _); [|done].
  destruct (Qle_bool _ _); [done|]. by destruct (population !! _).
Qed.

Lemma choices_tail {A : Type} (population : list A) (weights : list Q)
    (g g1 : RandomState) x :
  choices population weights g = Ok (x, g1) -> g1 = fun i => g (S i).
Proof.
  unfold choices, random. destruct (negb _); [done|]. destruct (last _); [|done].
  destruct (Qle_bool _ _); [done|]. destruct (population !! _); [|done].
  by intros [= _ <-].
Qed.

Section Reseed.
Variables (corpus : Corpus) (d : Q) (all_pages : list page).

Lemma sample_step_head (dct : Ranks) (pg : page) (g g' : RandomState) :
  g 0%nat = g' 0%nat ->
  sample_step corpus d all_pages (dct, pg, g')
  = reseed (fun i => g' (S i)) (sample_step corpus d all_pages (dct, pg, g)).
Proof.
  intros H0. unfold sample_step.
  destruct (dict_get dct pg) as [c|e]; [|done]. rewrite !bind_Ok.
  destruct (transition_model corpus pg d) as [model|e]; [|done]. rewrite !bind_Ok.
  rewrite (choices_head all_pages (values model) g g' H0).
  by destruct (choices all_pages (values model) g) as [[x g1]|e].
Qed.

Lemma sample_step_tail (dct dct' : Ranks) (pg pg' : page) (g g1 : RandomState) :
  sample_step corpus d all_pages (dct, pg, g) = Ok (dct', pg', g1) ->
  g1 = fun i => g (S i).
Proof.
  unfold sample_step.
  destruct (dict_get dct pg) as [c|e]; [|done]. rewrite !bind_Ok.
  destruct (transition_model corpus pg d) as [model|e]; [|done]. rewrite !bind_Ok.
  destruct (choices all_pages (values model) g) as [[x g2]|e] eqn:Hch; [|done].
  rewrite bind_Ok. intros [= _ _ <-]. by eapply choices_tail.
Qed.

End Reseed.

(** X7: the sampling loop reads one variate of the random source in each
    turn (the one [random.choices] draws): started from the same counters
    and the same current page, two sources that agree on their first
    [turns] variates leave the same counters and the same current page, or
    raise the same error, and the source is left advanced by [turns]
    variates. *)
Theorem sample_loop_variates corpus d all_pages (turns : nat) (dct : Ranks)
    (pg : page) (g g' : RandomState) :
  (forall i, (i < turns)%nat -> g i = g' i) ->
  sample_loop corpus d all_pages turns (dct, pg, g')
  = reseed (fun i => g' (turns + i)%nat)
      (sample_loop corpus d all_pages turns (dct, pg, g)).
Proof.
  revert dct pg g g'. induction turns as [|turns IH]; intros dct pg g g' Hagree;
    [done|].
  change (sample_loop corpus d all_pages (S turns) (dct, pg, g'))
    with (st' ← sample_step corpus d all_pages (dct, pg, g');
          sample_loop corpus d all_pages turns st').
  change (sample_loop corpus d all_pages (S turns) (dct, pg, g))
    with (st' ← sample_step corpus d all_pages (dct, pg, g);
          sample_loop corpus d all_pages turns st').
  rewrite (sample_step_head corpus d all_pages dct pg g g') by (apply Hagree; lia).
  destruct (sample_step corpus d all_pages (dct, pg, g)) as [[[d1 p1] g1]|e] eqn:Hstep;
    [|done].
  apply sample_step_tail in Hstep. subst g1. simpl reseed. rewrite !bind_Ok.
  rewrite (IH d1 p1 (fun i => g (S i)) (fun i => g' (S i))); [done|].
  intros i Hi. apply Hagree. lia.
Qed.

Lemma sample_loop_variates_witness :
  sample_loop triangle (85 # 100) (keys triangle) 3
    (tabulate (fun _ => 0) (keys triangle), "1.html"%string, lcg4)
  = reseed (fun i => lcg4 (3 + i)%nat)
      (sample_loop triangle (85 # 100) (keys triangle) 3
         (tabulate (fun _ => 0) (keys triangle), "1.html"%string, lcg)).
Proof.
  apply (sample_loop_variates triangle (85 # 100) (keys triangle) 3
           (tabulate (fun _ => 0) (keys triangle)) "1.html" lcg lcg4).
  intros i Hi. unfold lcg4.
  destruct (Nat.leb_spec i 3) as [_|Hgt]; [reflexivity|lia].
Defined.

(** ** [iterate_pagerank]: what it raises and what it returns *)

Lemma incoming_nonneg corpus damping (r : page -> Q) p :
  0 <= damping -> (forall q, 0 <= r q) -> 0 <= incoming corpus damping r p.
Proof.
  intros Hd Hr. rewrite incoming_sum. apply Qsum_nonneg. intros [q out] _. simpl.
  destruct (decide (p ∈ out)) as [Hp|Hp]; [|apply Qle_refl].
  apply Qle_shift_div_l.
  - apply inject_nat_pos. intros Hz. apply size_empty_inv in Hz.
    apply leibniz_equiv in Hz. subst out. by apply not_elem_of_empty in Hp.
  - rewrite Qmult_0_l. apply Qmult_le_0_compat; [done|apply Hr].
Qed.

Section LoopShape.
Variables (corpus : Corpus) (damping odds : Q).
Hypothesis Hnd : NoDup (keys corpus).

(** The loop keeps the pages of the corpus as keys and raises nothing; the
    ranks it returns are those of a sweep that counted every page, started
    from ranks with any property the sweeps keep. *)
Lemma iterate_loop_shape (I : (page -> Q) -> Prop) (fuel : nat) (N : Z)
    (r : page -> Q) res :
  (forall r, I r -> I (sweep corpus damping odds r 0 (keys corpus)).1) -> I r ->
  iterate_loop fuel corpus damping odds N (tabulate r (keys corpus)) = Some res ->
  exists prev,
    I prev /\
    res = Ok (tabulate (sweep corpus damping odds prev 0 (keys corpus)).1
                (keys corpus)) /\
    (sweep corpus damping odds prev 0 (keys corpus)).2 = N.
Proof.
  intros Hkeep. revert r. induction fuel as [|fuel IH]; intros r Hr; [done|].
  simpl. rewrite pass_tabulate by done.
  destruct (Z.eqb _ N) eqn:Hc.
  - intros [= <-]. apply Z.eqb_eq in Hc. by exists r.
  - apply IH. by apply Hkeep.
Qed.

(** A sweep keeps ranks non-negative, and leaves every page it rewrites with
    at least [odds]. *)
Lemma sweep_nonneg (todo : list page) (r : page -> Q) (c : Z) :
  0 <= damping -> 0 <= odds -> (forall q, 0 <= r q) ->
  (forall q, 0 <= (sweep corpus damping odds r c todo).1 q) /\
  (forall p, p ∈ todo \/ odds <= r p ->
             odds <= (sweep corpus damping odds r c todo).1 p).
Proof.
  intros Hd Ho. revert r c. induction todo as [|x todo IH]; intros r c Hr.
  - simpl. split; [done|]. intros p [Hp|Hp]; [by apply elem_of_nil in Hp|done].
  - simpl.
    assert (odds <= new_rank corpus damping odds r x) as Hnew.
    { unfold new_rank. pose proof (incoming_nonneg corpus damping r x Hd Hr). lra. }
    assert (forall q, 0 <= rewrite_page corpus damping odds r x q) as Hr1.
    { intros q. unfold rewrite_page. destruct (decide (q = x)); [lra|apply Hr]. }
    destruct (IH (rewrite_page corpus damping odds r x)
                (if settled corpus damping odds r x then (c + 1)%Z else c) Hr1)
      as [Hpos Hodds].
    split; [done|]. intros p Hp. apply Hodds.
    destruct (decide (p = x)) as [->|Hne].
    + right. unfold rewrite_page. by rewrite decide_True.
    + destruct Hp as [Hp|Hp].
      * left. apply elem_of_cons in Hp as [?|?]; done.
      * right. unfold rewrite_page. by rewrite decide_False.
Qed.
End LoopShape.

Lemma iterate_pagerank_unfold fuel corpus d :
  corpus <> [] -> NoDup (keys corpus) ->
  iterate_pagerank fuel corpus d
  = iterate_loop fuel corpus d ((1 - d) / len corpus) (Z.of_nat (length corpus))
      (tabulate (fun _ => 1 / len corpus) (keys corpus)).
Proof.
  intros Hne Hnd.
  assert (~ len corpus == 0) as HN.
  { destruct corpus; [done|]. rewrite len_cons.
    pose proof (inject_nat_nonneg (length corpus)). unfold len. lra. }
  unfold iterate_pagerank.
  change (inject_Z (Z.of_nat (length corpus))) with (len corpus).
  rewrite !div_Ok by done. by rewrite fill_tabulate.
Qed.

Lemma len_pos {A : Type} (l : list A) : l <> [] -> 0 < len l.
Proof. intros Hne. unfold len. apply inject_nat_pos. by destruct l. Qed.

(** X8: [iterate_pagerank] raises exactly on the empty corpus, and what it
    raises there is [ZeroDivisionError], before any pass: on a non-empty
    corpus it raises nothing, whatever the links and the damping factor. *)
Theorem iterate_pagerank_raises fuel corpus d e :
  NoDup (keys corpus) ->
  (iterate_pagerank fuel corpus d = Some (Raise e)
   <-> corpus = [] /\ e = ZeroDivisionError).
Proof.
  intros Hnd. split.
  - destruct corpus as [|lo corpus]; [by intros [= <-]|].
    rewrite iterate_pagerank_unfold by done. intros Hrun. exfalso.
    by destruct (iterate_loop_shape _ d _ Hnd (fun _ => True) fuel _ _ _
                   (fun _ _ => I) I Hrun) as (prev & _ & ? & _).
  - by intros [-> ->].
Qed.

Lemma iterate_pagerank_raises_witness :
  iterate_pagerank 5 [] (85 # 100) = Some (Raise ZeroDivisionError)
  <-> @nil (page * gset page) = [] /\ ZeroDivisionError = ZeroDivisionError.
Proof.
  apply (iterate_pagerank_raises 5 [] (85 # 100) ZeroDivisionError).
  apply NoDup_nil_2.
Defined.

(** X9: on a non-empty corpus, whatever the links (a link may even be no
    page of the corpus), what [iterate_pagerank] returns is a mapping that
    has the pages of the corpus as its keys, in the order of the corpus. *)
Theorem iterate_pagerank_keys fuel corpus d res :
  NoDup (keys corpus) -> corpus <> [] ->
  iterate_pagerank fuel corpus d = Some res ->
  exists ranks, res = Ok ranks /\ keys ranks = keys corpus.
Proof.
  intros Hnd Hne. rewrite iterate_pagerank_unfold by done. intros Hrun.
  destruct (iterate_loop_shape corpus d _ Hnd (fun _ => True) fuel _ _ res
              (fun _ _ => I) I Hrun) as (prev & _ & -> & _).
  eexists. split; [done|]. apply keys_tabulate.
Qed.

Lemma iterate_pagerank_keys_witness :
  iterate_pagerank 3 broken_link (85 # 100)
  = Some (Ok [("1.html"%string, 555000 # 4000000); ("2.html"%string, 15 # 200)]) /\
  exists ranks,
    Ok [("1.html"%string, 555000 # 4000000); ("2.html"%string, 15 # 200)] = Ok ranks /\
    keys ranks = keys broken_link.
Proof.
  split; [vm_compute; reflexivity|].
  apply (iterate_pagerank_keys 3 broken_link (85 # 100)).
  - apply (bool_decide_unpack _). vm_compute. exact I.
  - discriminate.
  - vm_compute. reflexivity.
Defined.

(** X10: for a damping factor in [0, 1), every rank [iterate_pagerank]
    returns is at least (1 - d)/N, hence positive. *)
Theorem iterate_pagerank_positive fuel corpus d ranks :
  NoDup (keys corpus) -> corpus <> [] -> 0 <= d -> d < 1 ->
  iterate_pagerank fuel corpus d = Some (Ok ranks) ->
  forall p, p ∈ keys corpus ->
    (1 - d) / len corpus <= rank_of ranks p /\ 0 < rank_of ranks p.
Proof.
  intros Hnd Hne Hd0 Hd1. rewrite iterate_pagerank_unfold by done. intros Hrun.
  pose proof (len_pos corpus Hne) as HN.
  assert (0 < (1 - d) / len corpus) as Hodds by (apply Qlt_shift_div_l; lra).
  assert (forall r : page -> Q, (forall q, 0 <= r q) ->
            forall q, 0 <= (sweep corpus d ((1 - d) / len corpus) r 0
                              (keys corpus)).1 q) as Hkeep.
  { intros r Hr. apply sweep_nonneg; [done|lra|done]. }
  assert (forall q : page, 0 <= 1 / len corpus) as Hstart.
  { intros _. apply Qlt_le_weak, Qlt_shift_div_l; lra. }
  destruct (iterate_loop_shape corpus d ((1 - d) / len corpus) Hnd
              (fun r => forall q, 0 <= r q) fuel _ _ _ Hkeep Hstart Hrun)
    as (prev & Hprev & [= ->] & _).
  intros p Hp. rewrite rank_of_tabulate by done.
    destruct (sweep_nonneg corpus d ((1 - d) / len corpus) (keys corpus) prev 0)
      as [_ Hge]; [done|lra|done|].
    specialize (Hge p (or_introl Hp)). split; [done|lra].
Qed.

Lemma iterate_pagerank_positive_witness :
  (1 - (85 # 100)) / len with_dangling
  <= rank_of [("1.html"%string, 555000 # 4000000); ("2.html"%string, 15 # 200)]
       "2.html"
  /\ 0 < rank_of [("1.html"%string, 555000 # 4000000); ("2.html"%string, 15 # 200)]
            "2.html".
Proof.
  apply (iterate_pagerank_positive 3 with_dangling (85 # 100)).
  - apply (bool_decide_unpack _). vm_compute. exact I.
  - discriminate.
  - discriminate.
  - reflexivity.
  - vm_compute. reflexivity.
  - apply (bool_decide_unpack _). vm_compute. exact I.
Defined.

(** ** Sums over the pages and over the links *)

Lemma Qsum_app (l1 l2 : list Q) : Qsum (l1 ++ l2) == Qsum l1 + Qsum l2.
Proof. induction l1 as [|x l1 IH]; simpl; [ring|]. rewrite IH. ring. Qed.

Lemma Qsum_swap {A B : Type} (f : A -> B -> Q) (l1 : list A) (l2 : list B) :
  Qsum (map (fun x => Qsum (map (fun y => f x y) l2)) l1)
  == Qsum (map (fun y => Qsum (map (fun x => f x y) l1)) l2).
Proof.
  induction l1 as [|x l1 IH]; simpl.
  - rewrite (Qsum_const 0). ring.
  - rewrite IH, <- Qsum_plus. reflexivity.
Qed.

Lemma Qsum_abs {A : Type} (f : A -> Q) (l : list A) :
  Qabs (Qsum (map f l)) <= Qsum (map (fun x => Qabs (f x)) l).
Proof.
  induction l as [|x l IH]; simpl; [discriminate|].
  eapply Qle_trans; [apply Qabs_triangle|]. lra.
Qed.

Lemma Qsum_scaled_l {A : Type} (c : Q) (f : A -> Q) (l : list A) :
  c * Qsum (map f l) == Qsum (map (fun x => c * f x) l).
Proof. induction l as [|x l IH]; simpl; [ring|]. rewrite <- IH. ring. Qed.

(** A sum over the keys of a dict is a sum over its items. *)
Lemma Qsum_keys_items {V : Type} (d : list (page * V)) (g : page -> Q)
    (h : page * V -> Q) :
  (forall kv, kv ∈ d -> g kv.1 == h kv) ->
  Qsum (map g (keys d)) == Qsum (map h d).
Proof.
  intros Hgh. unfold keys. rewrite map_map. by apply Qsum_ext.
Qed.

Section Shares.
Variables (corpus : Corpus) (damping : Q).
Hypothesis Hnd : NoDup (keys corpus).

Lemma share_item (p : page) (lo : page * gset page) :
  lo ∈ corpus ->
  share corpus damping p lo.1
  = if decide (p ∈ lo.2) then damping / set_len lo.2 else 0.
Proof.
  intros Hlo. unfold share. destruct lo as [q out]. simpl.
  by rewrite (dict_get_item corpus q out Hnd Hlo).
Qed.

(** What [p] receives is the sum of the shares of the ranks. *)
Lemma incoming_shares (r : page -> Q) (p : page) :
  incoming corpus damping r p
  == Qsum (map (fun q => share corpus damping p q * r q) (keys corpus)).
Proof.
  rewrite incoming_sum. symmetry. apply Qsum_keys_items. intros lo Hlo.
  rewrite share_item by done. destruct (decide (p ∈ lo.2)) as [Hp|Hp]; [|ring].
  field. apply set_len_nonzero. intros Hz. apply size_empty_inv in Hz.
  apply leibniz_equiv in Hz. rewrite Hz in Hp. by apply not_elem_of_empty in Hp.
Qed.

(** Non-negative ranks hand out at most [damping] times their sum. *)
Lemma incoming_total_le (r : page -> Q) :
  0 <= damping -> (forall q, 0 <= r q) ->
  Qsum (map (fun p => incoming corpus damping r p) (keys corpus))
  <= damping * Qsum (map r (keys corpus)).
Proof.
  intros Hd Hr.
  rewrite (Qsum_ext _ (fun p => Qsum (map (fun q => share corpus damping p q * r q)
                                        (keys corpus))))
    by (intros; apply incoming_shares).
  rewrite Qsum_swap.
  rewrite (Qsum_scaled_l damping r).
  apply Qsum_le. intros q _. rewrite Qsum_scale.
  apply Qmult_le_compat_r; [by apply share_column|apply Hr].
Qed.

(** A page with links, all of them pages of the corpus, hands out exactly
    [damping] times its rank. *)
Lemma share_column_eq (x : page) (out : gset page) :
  dict_get corpus x = Ok out -> size out <> 0%nat ->
  (forall q, q ∈ out -> q ∈ keys corpus) ->
  Qsum (map (fun p => share corpus damping p x) (keys corpus)) == damping.
Proof.
  intros Hget Hsz Hsub. unfold share. rewrite Hget.
  rewrite (Qsum_indicator (fun p => p ∈ out)). unfold len.
  rewrite filter_in_set_eq by done. fold (set_len out).
  field. by apply set_len_nonzero.
Qed.
End Shares.

(** On a corpus every page of which has links, all of them pages of the
    corpus, the pages receive together [damping] times the sum of the
    ranks. *)
Lemma incoming_total_eq corpus damping (r : page -> Q) :
  well_formed corpus -> Forall (fun lo => size lo.2 <> 0%nat) corpus ->
  Qsum (map (fun p => incoming corpus damping r p) (keys corpus))
  == damping * Qsum (map r (keys corpus)).
Proof.
  intros Hwf Hlinks. pose proof Hwf as [Hnd _].
  rewrite (Qsum_ext _ (fun p => Qsum (map (fun q => share corpus damping p q * r q)
                                        (keys corpus))))
    by (intros; by apply incoming_shares).
  rewrite Qsum_swap.
  rewrite (Qsum_scaled_l damping r).
  apply Qsum_ext. intros q Hq. rewrite Qsum_scale.
  destruct (dict_get_key corpus q Hq) as [out Hget].
  rewrite (share_column_eq corpus damping Hnd q out Hget).
  - reflexivity.
  - rewrite Forall_forall in Hlinks. apply (Hlinks (q, out)).
    by apply dict_get_Ok_inv.
  - by eapply well_formed_links.
Qed.

(** ** A bound on the number of passes *)

Lemma len_keys (corpus : Corpus) : len (keys corpus) = len corpus.
Proof. unfold len, keys. by rewrite length_map. Qed.

(** The potential of the first ranks is at most [2 * d]. *)
Lemma initial_potential corpus d :
  NoDup (keys corpus) -> corpus <> [] -> 0 <= d ->
  potential corpus d ((1 - d) / len corpus) (fun _ => 1 / len corpus) <= 2 * d.
Proof.
  intros Hnd Hne Hd. pose proof (len_pos corpus Hne) as HN.
  set (r0 := fun _ : page => 1 / len corpus).
  assert (forall q, 0 <= r0 q) as Hr0
      by (intros q; apply Qlt_le_weak, Qlt_shift_div_l; lra).
  unfold potential.
  eapply Qle_trans.
  { apply (Qsum_le _ (fun p => incoming corpus d r0 p + d / len corpus)).
    intros p _. unfold residual, new_rank.
    pose proof (incoming_nonneg corpus d r0 p Hd Hr0) as Hin.
    assert (0 <= d / len corpus) as Hdn by (apply Qle_shift_div_l; lra).
    assert ((1 - d) / len corpus + incoming corpus d r0 p - r0 p
            == incoming corpus d r0 p + - (d / len corpus)) as ->
        by (unfold r0; field; lra).
    eapply Qle_trans; [apply Qabs_triangle|].
    rewrite Qabs_opp, !Qabs_pos by done. lra. }
  rewrite Qsum_plus, Qsum_const, len_keys.
  pose proof (incoming_total_le corpus d Hnd r0 Hd Hr0) as Htot.
  unfold r0 in Htot at 2. rewrite Qsum_const, len_keys in Htot.
  assert (d * (len corpus * (1 / len corpus)) == d) as E1 by (field; lra).
  assert (len corpus * (d / len corpus) == d) as E2 by (field; lra).
  rewrite E1 in Htot. rewrite E2.
  change (Qsum (map (fun p => incoming corpus d r0 p) (keys corpus)))
    with (Qsum (map (incoming corpus d r0) (keys corpus))) in Htot.
  lra.
Qed.

(** Fuel for [pass_bound d] passes is enough. *)
Lemma iterate_within_pass_bound corpus d fuel :
  NoDup (keys corpus) -> corpus <> [] -> 0 <= d -> d < 1 ->
  (pass_bound d <= fuel)%nat ->
  exists ranks, iterate_pagerank fuel corpus d = Some (Ok ranks).
Proof.
  intros Hnd Hne Hd0 Hd1 Hfuel.
  pose proof (initial_potential corpus d Hnd Hne Hd0) as Hpot.
  set (q := (1 - d) * threshold).
  assert (0 < q) as Hq by (apply Qmult_lt_0_compat; [lra|reflexivity]).
  destruct (iterate_loop_ends corpus d ((1 - d) / len corpus) Hnd Hd0 Hd1
              (pass_bound d) (fun _ => 1 / len corpus)) as [ranks Hloop].
  { eapply Qle_lt_trans; [exact Hpot|].
    assert (2 * d == q * (2000 * d / (1 - d))) as ->
        by (unfold q, threshold; field; lra).
    apply Qmult_lt_l; [done|].
    eapply Qle_lt_trans; [apply Qle_ceiling|]. rewrite <- Zlt_Qlt.
    unfold pass_bound. lia. }
  exists ranks. rewrite iterate_pagerank_unfold by done.
  replace fuel with (pass_bound d + (fuel - pass_bound d))%nat by lia.
  by apply iterate_loop_more_fuel.
Qed.



(** ** The recurrence and the transition model *)




(** ** The sum of the ranks returned *)

Lemma sweep_count_bounds corpus damping odds (todo : list page) (r : page -> Q) (c : Z) :
  (c <= (sweep corpus damping odds r c todo).2 <= c + Z.of_nat (length todo))%Z.
Proof.
  revert r c. induction todo as [|x todo IH]; intros r c; simpl; [lia|].
  specialize (IH (rewrite_page corpus damping odds r x)
                (if settled corpus damping odds r x then (c + 1)%Z else c)).
  destruct (settled corpus damping odds r x); lia.
Qed.

Section SettledPass.
Variables (corpus : Corpus) (damping odds : Q).
Hypothesis Hnd : NoDup (keys corpus).
Hypothesis Hd0 : 0 <= damping.

(** The residuals after [x] was rewritten. *)
Lemma residual_rewrite (r : page -> Q) (x p : page) :
  residual corpus damping odds (rewrite_page corpus damping odds r x) p
  == (if decide (p = x) then 0 else residual corpus damping odds r p)
     + share corpus damping p x * residual corpus damping odds r x.
Proof.
  unfold residual at 1. unfold new_rank. rewrite incoming_rewrite by done.
  unfold rewrite_page. destruct (decide (p = x)) as [->|Hne].
  - unfold new_rank. ring.
  - unfold residual, new_rank. ring.
Qed.

(** In a sweep that counts every page, each update leaves behind residuals
    of at most [damping] times the threshold in all. *)
Lemma sweep_settled_residual (todo done : list page) (r : page -> Q) (c : Z) :
  keys corpus = done ++ todo ->
  (sweep corpus damping odds r c todo).2 = (c + Z.of_nat (length todo))%Z ->
  Qsum (map (fun p => Qabs (residual corpus damping odds
                              (sweep corpus damping odds r c todo).1 p))
          (done ++ todo))
  <= Qsum (map (fun p => Qabs (residual corpus damping odds r p)) done)
     + damping * threshold * len todo.
Proof.
  revert done r c. induction todo as [|x todo IH]; intros done r c Hks Hcount.
  - simpl. rewrite app_nil_r. unfold len. simpl.
    assert (damping * threshold * inject_Z 0 == 0) as -> by (change (inject_Z 0) with 0; ring).
    lra.
  - change (sweep corpus damping odds r c (x :: todo))
      with (sweep corpus damping odds (rewrite_page corpus damping odds r x)
              (if settled corpus damping odds r x then c + 1 else c)%Z todo)
      in Hcount |- *.
    rewrite length_cons, Nat2Z.inj_succ in Hcount.
    set (r1 := rewrite_page corpus damping odds r x) in *.
    destruct (settled corpus damping odds r x) eqn:Hset.
    2:{ pose proof (sweep_count_bounds corpus damping odds todo r1 c) as Hb. lia. }
    set (delta := residual corpus damping odds r x).
    assert (Qabs delta <= threshold) as Hdelta.
    { apply settled_true in Hset. unfold delta, residual.
      rewrite Qabs_Qminus. by apply Qlt_le_weak. }
    assert (keys corpus = (done ++ [x]) ++ todo) as Hks'
        by (by rewrite <- app_assoc).
    specialize (IH (done ++ [x]) r1 (c + 1)%Z Hks').
    rewrite <- app_assoc in IH. change ([x] ++ todo) with (x :: todo) in IH.
    eapply Qle_trans; [apply IH; lia|]. clear IH.
    rewrite len_cons.
    assert (NoDup (done ++ [x])) as Hnd1.
    { rewrite Hks' in Hnd. by apply NoDup_app in Hnd as (? & _ & _). }
    assert (Qsum (map (fun p => Qabs (residual corpus damping odds r1 p)) (done ++ [x]))
            <= Qsum (map (fun p => Qabs (residual corpus damping odds r p)) done)
               + damping * Qabs delta) as Hstep.
    { eapply Qle_trans.
      { apply (Qsum_le _ (fun p => (if decide (p = x) then 0
                                    else Qabs (residual corpus damping odds r p))
                                   + share corpus damping p x * Qabs delta)).
        intros p _. unfold r1. rewrite residual_rewrite. fold delta.
        pose proof (share_nonneg corpus damping Hd0 p x) as Hs.
        eapply Qle_trans; [apply Qabs_triangle|].
        rewrite Qabs_Qmult, (Qabs_pos (share corpus damping p x)) by done.
        destruct (decide (p = x)); [change (Qabs 0) with 0|]; lra. }
      rewrite Qsum_plus, Qsum_scale.
      apply Qplus_le_compat.
      - rewrite map_app, Qsum_app.
        assert (Qsum (map (fun p => if decide (p = x) then 0
                                    else Qabs (residual corpus damping odds r p)) [x])
                == 0) as ->.
        { unfold Qsum. cbn [map foldr]. rewrite decide_True by done. ring. }
        rewrite (Qsum_ext _ (fun p => Qabs (residual corpus damping odds r p))).
        + lra.
        + intros p Hp. rewrite decide_False; [reflexivity|]. intros ->.
          apply NoDup_app in Hnd1 as (_ & Hdis & _). apply (Hdis x Hp). left.
      - apply Qmult_le_compat_r; [|apply Qabs_nonneg].
        eapply Qle_trans; [|apply (share_column corpus damping Hnd Hd0 x)].
        rewrite Hks', !map_app, !Qsum_app.
        assert (0 <= Qsum (map (fun p => share corpus damping p x) todo)); [|lra].
        apply Qsum_nonneg. intros p _. by apply share_nonneg. }
    assert (damping * Qabs delta <= damping * threshold)
      by (rewrite !(Qmult_comm damping); by apply Qmult_le_compat_r).
    assert (damping * threshold * (len todo + 1)
            == damping * threshold * len todo + damping * threshold) as -> by ring.
    lra.
Qed.
End SettledPass.

(** On a corpus every page of which has links, all of them pages of the
    corpus, the residuals measure how far the sum of the ranks is from one. *)
Lemma residual_total corpus d (r : page -> Q) :
  well_formed corpus -> corpus <> [] -> Forall (fun lo => size lo.2 <> 0%nat) corpus ->
  Qsum (map (fun p => residual corpus d ((1 - d) / len corpus) r p) (keys corpus))
  == (1 - d) * (1 - Qsum (map r (keys corpus))).
Proof.
  intros Hwf Hne Hlinks. pose proof (len_pos corpus Hne) as HN.
  rewrite (Qsum_ext _ (fun p => ((1 - d) / len corpus + incoming corpus d r p)
                                + (-1) * r p)).
  2:{ intros p _. unfold residual, new_rank. ring. }
  rewrite !Qsum_plus, Qsum_const, len_keys, <- Qsum_scaled_l.
  rewrite incoming_total_eq by done. field. lra.
Qed.

(** X13: on a well-formed corpus every page of which has links, and for a
    damping factor in [0, 1), the ranks [iterate_pagerank] returns sum to one
    within d/(1 - d) times 0.001 times the number of pages. *)
Theorem iterate_pagerank_total_bound fuel corpus d ranks :
  well_formed corpus -> corpus <> [] ->
  Forall (fun lo => size lo.2 <> 0%nat) corpus -> 0 <= d -> d < 1 ->
  iterate_pagerank fuel corpus d = Some (Ok ranks) ->
  Qabs (total ranks - 1) * (1 - d) <= d * threshold * len corpus.
Proof.
  intros Hwf Hne Hlinks Hd0 Hd1. pose proof Hwf as [Hnd _].
  rewrite iterate_pagerank_unfold by done. intros Hrun.
  destruct (iterate_loop_shape corpus d ((1 - d) / len corpus) Hnd
              (fun _ => True) fuel _ _ _ (fun _ _ => I) I Hrun)
    as (prev & _ & [= ->] & Hcount).
  set (r' := (sweep corpus d ((1 - d) / len corpus) prev 0 (keys corpus)).1) in *.
  unfold total. rewrite values_tabulate.
  pose proof (sweep_settled_residual corpus d ((1 - d) / len corpus) Hnd Hd0
                (keys corpus) [] prev 0 eq_refl) as Hres.
  rewrite app_nil_l in Hres. fold r' in Hres.
  assert (length (keys corpus) = length corpus) as Hlen
      by (unfold keys; by rewrite length_map).
  specialize (Hres ltac:(rewrite Hcount, Hlen; lia)).
  unfold Qsum at 2 in Hres. cbn [map foldr] in Hres. rewrite len_keys in Hres.
  pose proof (residual_total corpus d r' Hwf Hne Hlinks) as Htot.
  pose proof (Qsum_abs (fun p => residual corpus d ((1 - d) / len corpus) r' p)
                (keys corpus)) as Habs.
  rewrite Htot in Habs.
  assert (Qabs (Qsum (map r' (keys corpus)) - 1) * (1 - d)
          == Qabs ((1 - d) * (1 - Qsum (map r' (keys corpus))))) as ->.
  { rewrite Qabs_Qmult, (Qabs_pos (1 - d)) by lra.
    rewrite (Qabs_Qminus 1). ring. }
  eapply Qle_trans; [exact Habs|]. lra.
Qed.

Lemma iterate_pagerank_total_bound_witness :
  Qabs (total [("1.html"%string, 20000 # 40000);
               ("2.html"%string, 400000000 # 800000000)] - 1)
  * (1 - (85 # 100))
  <= (85 # 100) * threshold * len two_cycle.
Proof.
  apply (iterate_pagerank_total_bound 1 two_cycle (85 # 100)).
  - apply (bool_decide_unpack _). vm_compute. exact I.
  - discriminate.
  - apply (bool_decide_unpack _). vm_compute. exact I.
  - discriminate.
  - reflexivity.
  - vm_compute. reflexivity.
Defined.

(** ** A corpus without links *)

Lemma incoming_no_links corpus d (r : page -> Q) p :
  Forall (fun lo => lo.2 = ∅) corpus -> incoming corpus d r p = 0.
Proof.
  intros Hall. unfold incoming. generalize 0.
  induction corpus as [|[q out] corpus IH]; intros s; [done|].
  apply Forall_cons in Hall as [Hout Hall]. simpl in Hout. subst out. simpl.
  rewrite decide_False by apply not_elem_of_empty. by apply IH.
Qed.

Section NoLinks.
Variables (corpus : Corpus) (d odds : Q).
Hypothesis Hall : Forall (fun lo => lo.2 = ∅) corpus.

Lemma sweep_no_links (todo : list page) (r : page -> Q) (c : Z) (q : page) :
  (sweep corpus d odds r c todo).1 q = if decide (q ∈ todo) then odds + 0 else r q.
Proof.
  revert r c. induction todo as [|x todo IH]; intros r c.
  - change ((sweep corpus d odds r c []).1 q) with (r q).
    rewrite decide_False; [done|]. apply not_elem_of_nil.
  - change (sweep corpus d odds r c (x :: todo))
      with (sweep corpus d odds (rewrite_page corpus d odds r x)
              (if settled corpus d odds r x then c + 1 else c)%Z todo).
    rewrite IH. unfold rewrite_page, new_rank.
    rewrite incoming_no_links by done.
    destruct (decide (q ∈ todo)) as [Hq|Hq].
    + rewrite decide_True; [done|]. by right.
    + destruct (decide (q = x)) as [->|Hne].
      * rewrite decide_True; [done|]. left.
      * rewrite decide_False; [done|]. intros Hin.
        apply elem_of_cons in Hin as [?|?]; done.
Qed.

Lemma sweep_no_links_count (todo : list page) (r : page -> Q) (c : Z) :
  (forall q, r q = odds + 0) ->
  (sweep corpus d odds r c todo).2 = (c + Z.of_nat (length todo))%Z.
Proof.
  revert r c. induction todo as [|x todo IH]; intros r c Hr.
  - simpl. lia.
  - change (sweep corpus d odds r c (x :: todo))
      with (sweep corpus d odds (rewrite_page corpus d odds r x)
              (if settled corpus d odds r x then c + 1 else c)%Z todo).
    assert (settled corpus d odds r x = true) as ->.
    { apply settled_true. unfold new_rank.
      rewrite incoming_no_links, Hr by done.
      assert (odds + 0 - (odds + 0) == 0) as -> by ring. reflexivity. }
    rewrite IH; [rewrite length_cons; lia|].
    intros q. unfold rewrite_page, new_rank.
    rewrite incoming_no_links by done. by destruct (decide (q = x)).
Qed.
End NoLinks.

(** X14: on a non-empty corpus no page of which has a link,
    [iterate_pagerank] leaves its loop within two passes and gives every page
    the rank (1 - d)/N, so that the ranks sum to 1 - d, whatever the damping
    factor. *)
Theorem iterate_pagerank_no_links fuel corpus d :
  NoDup (keys corpus) -> corpus <> [] -> Forall (fun lo => lo.2 = ∅) corpus ->
  (2 <= fuel)%nat ->
  exists ranks,
    iterate_pagerank fuel corpus d = Some (Ok ranks) /\
    keys ranks = keys corpus /\
    (forall p, p ∈ keys corpus -> rank_of ranks p == (1 - d) / len corpus) /\
    total ranks == 1 - d.
Proof.
  intros Hnd Hne Hall Hfuel. pose proof (len_pos corpus Hne) as HN.
  set (odds := (1 - d) / len corpus).
  exists (tabulate (fun _ => odds + 0) (keys corpus)).
  split; [|split; [apply keys_tabulate|split]].
  - rewrite iterate_pagerank_unfold by done. fold odds.
    destruct fuel as [|[|fuel]]; [lia|lia|].
    assert (forall r, tabulate (sweep corpus d odds r 0 (keys corpus)).1 (keys corpus)
                      = tabulate (fun _ => odds + 0) (keys corpus)) as Hsweep.
    { intros r. apply tabulate_ext. intros q Hq.
      rewrite sweep_no_links by done. by rewrite decide_True. }
    assert (length (keys corpus) = length corpus) as Hlen
        by (unfold keys; by rewrite length_map).
    change (iterate_loop (S (S fuel)) corpus d odds (Z.of_nat (length corpus))
              (tabulate (fun _ => 1 / len corpus) (keys corpus)))
      with (match pass corpus d odds (tabulate (fun _ => 1 / len corpus) (keys corpus))
            with
            | Raise e => Some (Raise e)
            | Ok (d', converted_count) =>
                if Z.eqb converted_count (Z.of_nat (length corpus)) then Some (Ok d')
                else iterate_loop (S fuel) corpus d odds (Z.of_nat (length corpus)) d'
            end).
    rewrite pass_tabulate, Hsweep by done.
    destruct (Z.eqb _ _); [done|].
    change (iterate_loop (S fuel) corpus d odds (Z.of_nat (length corpus))
              (tabulate (fun _ => odds + 0) (keys corpus)))
      with (match pass corpus d odds (tabulate (fun _ => odds + 0) (keys corpus))
            with
            | Raise e => Some (Raise e)
            | Ok (d', converted_count) =>
                if Z.eqb converted_count (Z.of_nat (length corpus)) then Some (Ok d')
                else iterate_loop fuel corpus d odds (Z.of_nat (length corpus)) d'
            end).
    rewrite pass_tabulate, Hsweep by done.
    rewrite sweep_no_links_count by done.
    rewrite Z.add_0_l, Hlen, Z.eqb_refl. done.
  - intros p Hp. rewrite rank_of_tabulate by done. ring.
  - unfold total. rewrite values_tabulate, Qsum_const, len_keys.
    unfold odds. field. lra.
Qed.

Lemma iterate_pagerank_no_links_witness :
  exists ranks,
    iterate_pagerank 2 single_page (85 # 100) = Some (Ok ranks) /\
    keys ranks = keys single_page /\
    (forall p, p ∈ keys single_page ->
       rank_of ranks p == (1 - (85 # 100)) / len single_page) /\
    total ranks == 1 - (85 # 100).
Proof.
  apply (iterate_pagerank_no_links 2 single_page (85 # 100)).
  - apply (bool_decide_unpack _). vm_compute. exact I.
  - discriminate.
  - apply (bool_decide_unpack _). vm_compute. exact I.
  - lia.
Defined.

(** ** From the directory to the ranks *)

(** The values [sample_pagerank] returns lie between zero and one. *)
Lemma sample_pagerank_bounds corpus d n g :
  well_formed corpus -> corpus <> [] -> (1 <= n)%Z -> uniform01 g ->
  exists ranks,
    sample_pagerank corpus d n g = Ok ranks /\ keys ranks = keys corpus /\
    forall p, p ∈ keys corpus -> 0 <= rank_of ranks p /\ rank_of ranks p <= 1.
Proof.
  intros Hwf Hne Hn Hg.
  destruct (sample_pagerank_counts corpus d n g Hwf Hne Hn Hg)
    as (first & visited & f & _ & _ & Hlen & Hall & Hrun & Hf).
  pose proof (len_walk visited n Hn Hlen) as HL.
  assert (0 < inject_Z n) as Hpos.
  { change 0 with (inject_Z 0). rewrite <- Zlt_Qlt. lia. }
  exists (tabulate f (keys corpus)). split; [done|]. split; [apply keys_tabulate|].
  intros p Hp. rewrite rank_of_tabulate, Hf by done.
  destruct (visits_bounds p visited) as [Hlo Hhi]. rewrite HL in Hhi. split.
  - apply Qle_shift_div_l; [done|]. lra.
  - apply Qle_shift_div_r; [done|]. lra.
Qed.

(** X15: what [main] computes: for a directory that can be listed, whose
    ".html" files can be read and are at least one, [crawl] returns a corpus
    on which [sample_pagerank], with the damping factor and the sample count
    of the program, returns a rank between zero and one for every page of
    the corpus, and on which [iterate_pagerank] leaves its loop. *)
Theorem crawl_then_rank findall (fs : FileSystem) names g :
  listdir fs = Ok names ->
  (forall name, name ∈ names -> endswith name ".html" = true ->
                exists contents, read fs name = Ok contents) ->
  (exists name, name ∈ names /\ endswith name ".html" = true) ->
  uniform01 g ->
  exists corpus,
    crawl_files findall fs = Ok corpus /\
    (exists ranks,
       sample_pagerank corpus DAMPING SAMPLES g = Ok ranks /\
       keys ranks = keys corpus /\
       forall p, p ∈ keys corpus -> 0 <= rank_of ranks p /\ rank_of ranks p <= 1) /\
    (forall fuel, (pass_bound DAMPING <= fuel)%nat ->
       exists ranks, iterate_pagerank fuel corpus DAMPING = Some (Ok ranks)).
Proof.
  intros Hlist Hread (name & Hin & Hhtml) Hg.
  destruct (crawl_files_Ok findall fs names Hlist Hread)
    as (corpus & Hrun & Hkeys & Hwf & _).
  assert (corpus <> []) as Hne.
  { assert (name ∈ keys corpus) as Hk by (by apply Hkeys).
    intros ->. by apply elem_of_nil in Hk. }
  exists corpus. split; [done|]. split.
  - apply sample_pagerank_bounds; [done|done|done|done].
  - intros fuel Hfuel.
    apply iterate_within_pass_bound; [apply Hwf|done|done|done|done].
Qed.

Lemma crawl_then_rank_witness :
  exists corpus,
    crawl_files site_links site_fs = Ok corpus /\
    (exists ranks,
       sample_pagerank corpus DAMPING SAMPLES lcg = Ok ranks /\
       keys ranks = keys corpus /\
       forall p, p ∈ keys corpus -> 0 <= rank_of ranks p /\ rank_of ranks p <= 1) /\
    (forall fuel, (pass_bound DAMPING <= fuel)%nat ->
       exists ranks, iterate_pagerank fuel corpus DAMPING = Some (Ok ranks)).
Proof.
  apply (crawl_then_rank site_links site_fs (map fst site) lcg).
  - reflexivity.
  - intros name Hin _. unfold site_fs. cbn [read].
    destruct (dict_get_key site name Hin) as [contents Hc].
    exists contents. by rewrite Hc.
  - exists "index.html"%string. split; [left|reflexivity].
  - apply lcg_uniform.
Defined.

(** ** Further edge cases *)

(** X16: [sample_pagerank] does not check the links either: when the page
    drawn first has a link that is no page of the corpus, and there is at
    least one turn, it raises [KeyError]. *)
Theorem sample_pagerank_unknown_link corpus d n g first g' out :
  NoDup (keys corpus) -> (1 <= n)%Z ->
  choice (keys corpus) g = Ok (first, g') -> dict_get corpus first = Ok out ->
  (exists q, q ∈ out /\ q ∉ keys corpus) ->
  sample_pagerank corpus d n g = Raise KeyError.
Proof.
  intros Hnd Hn Hch Hget Hbad.
  assert (first ∈ keys corpus) as Hfirst.
  { apply dict_get_Ok_inv in Hget. unfold keys. apply list_elem_of_fmap.
    by exists (first, out). }
  unfold sample_pagerank. rewrite Hch, bind_Ok. cbv beta iota.
  rewrite fill_tabulate by done.
  destruct (Z.to_nat n) as [|turns] eqn:Hturns; [lia|].
  change (sample_loop corpus d (keys corpus) (S turns)
            (tabulate (fun _ => 0) (keys corpus), first, g'))
    with (st' ← sample_step corpus d (keys corpus)
                  (tabulate (fun _ => 0) (keys corpus), first, g');
          sample_loop corpus d (keys corpus) turns st').
  unfold sample_step. rewrite dict_get_tabulate, bind_Ok by done.
  by rewrite (transition_model_unknown_link_raise corpus first d out).
Qed.

Lemma sample_pagerank_unknown_link_witness :
  sample_pagerank broken_link (85 # 100) 5 lcg = Raise KeyError.
Proof.
  apply (sample_pagerank_unknown_link broken_link (85 # 100) 5 lcg
           "1.html" (fun i => lcg (S i)) {["9.html"%string]}).
  - apply (bool_decide_unpack _). vm_compute. exact I.
  - lia.
  - reflexivity.
  - vm_compute. reflexivity.
  - exists "9.html"%string. split; apply (bool_decide_unpack _); vm_compute; exact I.
Defined.

Lemma incoming_ext_in corpus d (r r' : page -> Q) p :
  (forall q, q ∈ keys corpus -> r q = r' q) ->
  incoming corpus d r p = incoming corpus d r' p.
Proof.
  unfold incoming. generalize 0.
  induction corpus as [|[q out] corpus IH]; intros s Hext; [done|].
  simpl. rewrite (Hext q) by left. apply IH. intros q' Hq'. apply Hext. by right.
Qed.

(** X17: for a damping factor that is not negative, the ranks
    [iterate_pagerank] returns satisfy the recurrence up to a total error of
    d times 0.001 times the number of pages: the sum over the pages of the
    distance between a rank and the rank one more update would give. *)
Theorem iterate_pagerank_residual fuel corpus d ranks :
  NoDup (keys corpus) -> corpus <> [] -> 0 <= d ->
  iterate_pagerank fuel corpus d = Some (Ok ranks) ->
  Qsum (map (fun p => Qabs (new_rank corpus d ((1 - d) / len corpus) (rank_of ranks) p
                            - rank_of ranks p))
          (keys corpus))
  <= d * threshold * len corpus.
Proof.
  intros Hnd Hne Hd0. rewrite iterate_pagerank_unfold by done. intros Hrun.
  destruct (iterate_loop_shape corpus d ((1 - d) / len corpus) Hnd
              (fun _ => True) fuel _ _ _ (fun _ _ => I) I Hrun)
    as (prev & _ & [= ->] & Hcount).
  set (r' := (sweep corpus d ((1 - d) / len corpus) prev 0 (keys corpus)).1) in *.
  pose proof (sweep_settled_residual corpus d ((1 - d) / len corpus) Hnd Hd0
                (keys corpus) [] prev 0 eq_refl) as Hres.
  rewrite app_nil_l in Hres. fold r' in Hres.
  assert (length (keys corpus) = length corpus) as Hlen
      by (unfold keys; by rewrite length_map).
  specialize (Hres ltac:(rewrite Hcount, Hlen; lia)).
  unfold Qsum at 2 in Hres. cbn [map foldr] in Hres. rewrite len_keys in Hres.
  rewrite (Qsum_ext _ (fun p => Qabs (residual corpus d ((1 - d) / len corpus) r' p))).
  - lra.
  - intros p Hp. unfold residual, new_rank.
    rewrite rank_of_tabulate by done.
    rewrite (incoming_ext_in corpus d (rank_of (tabulate r' (keys corpus))) r');
      [reflexivity|].
    intros q Hq. by apply rank_of_tabulate.
Qed.

Lemma iterate_pagerank_residual_witness :
  Qsum (map (fun p =>
               Qabs (new_rank with_dangling (85 # 100)
                       ((1 - (85 # 100)) / len with_dangling)
                       (rank_of [("1.html"%string, 555000 # 4000000);
                                 ("2.html"%string, 15 # 200)]) p
                     - rank_of [("1.html"%string, 555000 # 4000000);
                                ("2.html"%string, 15 # 200)] p))
          (keys with_dangling))
  <= (85 # 100) * threshold * len with_dangling.
Proof.
  apply (iterate_pagerank_residual 3 with_dangling (85 # 100)).
  - apply (bool_decide_unpack _). vm_compute. exact I.
  - discriminate.
  - discriminate.
  - vm_compute. reflexivity.
Defined.
